(** * Vettly moderation orchestration layer: a shallow embedding

    The development follows the TypeScript sources of the repository:

    - [examples/discord-bot/src/utils/rate-limiter.ts]   (module [RateLimiter])
    - the Discord bot's config store ([config-store.ts]) (module [ConfigStore])
    - [packages/react/src/useModeration.ts]              (module [UseModeration])
    - the [ModeratedTextarea] component                  (module [Textarea])
    - [packages/react/src/ModeratedVideoUpload.tsx]      (modules [VideoUpload],
                                                           [VideoPreview])
    - the [ModeratedImageUpload] component               (module [ImageUpload])
    - the bot's setup command ([commands/setup.ts])      (module [ConfigStoreOps])
    - the bot's message handler and its moderation log   (module [MessageCreate])

    Conventions.  [Date.now()] readings are integers (milliseconds) and are
    passed to the embedded functions explicitly, in the order in which the
    source reads the clock.  A JavaScript string whose characters matter
    ([trim], [length]) is the list of its UTF-16 code units; identifiers
    and messages that are only stored and compared are [string]s.  The
    numbers the source computes with (video times, progress) are IEEE 754
    double-precision numbers (module [Double]); file sizes and the limits
    on them, which are only divided by a power of two and compared, are
    rationals.  Asynchronous functions are cut at their [await]s and
    [setTimeout]s into steps driven by events. *)

From Stdlib Require Import ZArith NArith List Bool Lia QArith.
From Stdlib Require SpecFloat.
From stdpp Require Import base gmap strings list.

Local Open Scope Z_scope.

(** ** Rate limiter ([rate-limiter.ts]) *)

Module RateLimiter.

(** [class RateLimiter]: the per-guild timestamp lists and the two
    constructor parameters. *)
Record t := mk {
  requests : gmap string (list Z);
  maxRequests : Z;
  windowMs : Z
}.

(** [constructor(maxRequests = 100, windowMs = 60_000)] *)
Definition default_maxRequests : Z := 100.
Definition default_windowMs : Z := 60000.

Definition new (maxRequests windowMs : Z) : t :=
  mk ∅ maxRequests windowMs.

Definition new_default : t := new default_maxRequests default_windowMs.

(** [timestamps.filter(ts => now - ts < this.windowMs)] *)
Definition recent (windowMs now : Z) (timestamps : list Z) : list Z :=
  filter (λ ts, now - ts < windowMs) timestamps.

(** [this.requests.get(guildId) || []] *)
Definition timestamps_of (rl : t) (guildId : string) : list Z :=
  default [] (requests rl !! guildId).

(** [isLimited(guildId)], with [now] the value of [Date.now()]. *)
Definition isLimited (now : Z) (guildId : string) (rl : t) : bool * t :=
  let timestamps := timestamps_of rl guildId in
  let recentRequests := recent (windowMs rl) now timestamps in
  if bool_decide (maxRequests rl ≤ Z.of_nat (length recentRequests)) then
    (true, rl)
  else
    (false,
     mk (<[guildId := recentRequests ++ [now]]> (requests rl))
        (maxRequests rl) (windowMs rl)).

(** [cleanup()]: every entry is filtered; empty ones are deleted. *)
Definition cleanup (now : Z) (rl : t) : t :=
  mk (omap (λ timestamps,
             let recentRequests := recent (windowMs rl) now timestamps in
             if bool_decide (length recentRequests = 0%nat) then None
             else Some recentRequests)
           (requests rl))
     (maxRequests rl) (windowMs rl).

(** The caller ([onMessageCreate]) proceeds exactly when [isLimited]
    answers [false]: the call is admitted. *)
Definition admitted (now : Z) (guildId : string) (rl : t) : bool :=
  negb (fst (isLimited now guildId rl)).

(** What can happen to the limiter: a call for a guild, or the periodic
    sweep, each at some clock reading. *)
Inductive event :=
| Call (guildId : string) (now : Z)
| Sweep (now : Z).

Definition time_of (e : event) : Z :=
  match e with Call _ now => now | Sweep now => now end.

Definition step (rl : t) (e : event) : t :=
  match e with
  | Call g now => snd (isLimited now g rl)
  | Sweep now => cleanup now rl
  end.

Definition run (evs : list event) (rl : t) : t := fold_left step evs rl.

(** Number of calls for [g] that were admitted along a run. *)
Fixpoint admits (g : string) (evs : list event) (rl : t) : nat :=
  match evs with
  | [] => 0
  | e :: evs' =>
      (match e with
       | Call g' now =>
           if bool_decide (g' = g) then
             (if admitted now g rl then 1 else 0)%nat
           else 0%nat
       | Sweep _ => 0%nat
       end + admits g evs' (step rl e))%nat
  end.

End RateLimiter.

(** ** Config store ([config-store.ts]) *)

Module ConfigStore.

(** A row of the [discord_servers] table. *)
Record DiscordServer := mkServer {
  id : string;
  guildId : string;
  guildName : option string;
  policyPreset : string;
  logChannelId : option string;
  enabled : bool;
  createdAt : Z;
  updatedAt : Z
}.

(** A cache entry: [{ config: DiscordServer | null; timestamp: number }]. *)
Record entry := mkEntry {
  config : option DiscordServer;
  timestamp : Z
}.

(** [const CACHE_TTL = 5 * 60 * 1000] *)
Definition CACHE_TTL : Z := 5 * 60 * 1000.

(** The module state: the table (its [guild_id] column is unique, so it is
    a map from guild identifiers to rows), the module-level [configCache],
    and the log of [select] queries sent to the database. *)
Record world := mkWorld {
  table : gmap string DiscordServer;
  configCache : gmap string entry;
  selects : list string
}.

(** [cached && Date.now() - cached.timestamp < CACHE_TTL] *)
Definition fresh (now : Z) (cached : option entry) : bool :=
  match cached with
  | Some e => bool_decide (now - timestamp e < CACHE_TTL)
  | None => false
  end.

(** [getServerConfig], up to its [await]: either the cached value is
    returned, or a [select ... where guild_id = guildId limit 1] is sent. *)
Inductive lookup_result :=
| Hit (cfg : option DiscordServer)
| Querying.

Definition getServerConfig_begin (now : Z) (guildId : string) (w : world)
  : lookup_result * world :=
  let cached := configCache w !! guildId in
  if fresh now cached then
    (match cached with Some e => Hit (config e) | None => Hit None end, w)
  else
    (Querying, mkWorld (table w) (configCache w) (selects w ++ [guildId])).

(** The query the database answers: [result[0] || null]. *)
Definition select_row (guildId : string) (w : world) : option DiscordServer :=
  table w !! guildId.

(** [getServerConfig], after the [await]: the row is cached under a new
    clock reading and returned. *)
Definition getServerConfig_resume
    (now : Z) (guildId : string) (row : option DiscordServer) (w : world)
  : option DiscordServer * world :=
  (row,
   mkWorld (table w)
           (<[guildId := mkEntry row now]> (configCache w))
           (selects w)).

(** A call of [getServerConfig] that runs to completion before anything
    else touches the store; [now1] and [now2] are its two clock readings. *)
Definition getServerConfig (now1 now2 : Z) (guildId : string) (w : world)
  : option DiscordServer * world :=
  match getServerConfig_begin now1 guildId w with
  | (Hit cfg, w') => (cfg, w')
  | (Querying, w') =>
      getServerConfig_resume now2 guildId (select_row guildId w') w'
  end.

(** [Partial<Pick<DiscordServer, 'policyPreset' | 'logChannelId' | 'enabled'
    | 'guildName'>>]: an absent key leaves the column alone. *)
Record updates := mkUpdates {
  set_policyPreset : option string;
  set_logChannelId : option (option string);
  set_enabled : option bool;
  set_guildName : option (option string)
}.

(** [.set({ ...updates, updatedAt: new Date() })] on one row. *)
Definition apply_updates (now : Z) (u : updates) (row : DiscordServer)
  : DiscordServer :=
  mkServer (id row) (guildId row)
           (default (guildName row) (set_guildName u))
           (default (policyPreset row) (set_policyPreset u))
           (default (logChannelId row) (set_logChannelId u))
           (default (enabled row) (set_enabled u))
           (createdAt row) now.

(** [configCache.delete(guildId)], the invalidation every write path ends
    with. *)
Definition invalidate (guildId : string) (w : world) : world :=
  mkWorld (table w) (delete guildId (configCache w)) (selects w).

(** [updateServerConfig]: the row, if there is one, is updated and
    returned; the cache entry is deleted. *)
Definition updateServerConfig
    (now : Z) (guildId : string) (u : updates) (w : world)
  : option DiscordServer * world :=
  let result := apply_updates now u <$> table w !! guildId in
  let table' :=
    match result with
    | Some row => <[guildId := row]> (table w)
    | None => table w
    end in
  (result, invalidate guildId (mkWorld table' (configCache w) (selects w))).

(** [deleteServerConfig]: [result.length > 0], after the invalidation. *)
Definition deleteServerConfig (guildId : string) (w : world) : bool * world :=
  (bool_decide (is_Some (table w !! guildId)),
   invalidate guildId
     (mkWorld (delete guildId (table w)) (configCache w) (selects w))).

(** Number of queries sent for one guild. *)
Definition fetches (guildId : string) (w : world) : nat :=
  length (filter (λ g, g = guildId) (selects w)).

End ConfigStore.

(** ** JavaScript numbers *)

Module Double.

(** A [number] is an IEEE 754 binary64 value: a zero, an infinity, NaN, or
    [(-1)^s * m * 2^e] with a mantissa of at most 53 bits.  The operations
    are those of the Standard Library's specification of floating-point
    arithmetic, which round to nearest, ties to even. *)
Definition double := SpecFloat.spec_float.

Definition prec : Z := 53.
Definition emax : Z := 1024.

(** An integer as a number (rounded when it needs more than 53 bits). *)
Definition of_Z (z : Z) : double :=
  SpecFloat.binary_normalize prec emax z 0 false.

Definition of_nat (n : nat) : double := of_Z (Z.of_nat n).

(** [a * b] and [a / b] *)
Definition mul (a b : double) : double := SpecFloat.SFmul prec emax a b.
Definition div (a b : double) : double := SpecFloat.SFdiv prec emax a b.

(** [a < b] and [a > b]; both are false when an operand is NaN. *)
Definition ltb (a b : double) : bool := SpecFloat.SFltb a b.
Definition gtb (a b : double) : bool := SpecFloat.SFltb b a.

(** The literal [0.1]: the number nearest to one tenth,
    [0x1.999999999999ap-4]. *)
Definition tenth : double :=
  SpecFloat.S754_finite false 7205759403792794 (-56).

(** [Math.min(a, b)]: NaN when an operand is NaN; of the two zeros the
    negative one is the smaller. *)
Definition min (a b : double) : double :=
  match SpecFloat.SFcompare a b with
  | None => SpecFloat.S754_nan
  | Some Lt => a
  | Some Gt => b
  | Some Eq => match a with SpecFloat.S754_zero true => a | _ => b end
  end.

(** Neither an infinity nor NaN. *)
Definition is_finite (a : double) : bool :=
  match a with
  | SpecFloat.S754_zero _ | SpecFloat.S754_finite _ _ _ => true
  | _ => false
  end.

(** The integer part, rounded down, of a finite number. *)
Definition floor (a : double) : Z :=
  match a with
  | SpecFloat.S754_finite s m e =>
      let n := if s then Z.neg m else Z.pos m in
      if 0 <=? e then n * 2 ^ e else n / 2 ^ (- e)
  | _ => 0
  end.

End Double.

(** ** JavaScript strings *)

Module JsString.

(** A string is the sequence of its UTF-16 code units. *)
Definition jsstring := list N.

(** The code units of an ASCII literal. *)
Definition js (s : string) : jsstring :=
  map (λ a, N.of_nat (Ascii.nat_of_ascii a)) (String.list_ascii_of_string s).

(** ECMAScript [WhiteSpace] and [LineTerminator] code points, the
    characters [String.prototype.trim] strips; all of them are single
    code units. *)
Definition isWhiteSpace (c : N) : bool :=
  ((c =? 9) || (c =? 10) || (c =? 11) || (c =? 12) || (c =? 13)
   || (c =? 32) || (c =? 160) || (c =? 5760)
   || ((8192 <=? c) && (c <=? 8202))
   || (c =? 8232) || (c =? 8233) || (c =? 8239) || (c =? 8287)
   || (c =? 12288) || (c =? 65279))%N.

Fixpoint trimStart (s : jsstring) : jsstring :=
  match s with
  | c :: s' => if isWhiteSpace c then trimStart s' else s
  | [] => []
  end.

Definition trimEnd (s : jsstring) : jsstring := rev (trimStart (rev s)).

(** [s.trim()] *)
Definition trim (s : jsstring) : jsstring := trimEnd (trimStart s).

(** Truthiness of a string: it is not empty. *)
Definition truthy (s : jsstring) : bool :=
  match s with [] => false | _ => true end.


End JsString.

(** ** The moderation hook ([useModeration.ts]) *)

Module UseModeration.
Import JsString.

Inductive Action := allow | warn | flag | block.

Inductive ContentType := text | image | video.

(** An element of [categories]. *)
Record CategoryResult := mkCategory {
  category : string;
  score : Q;
  threshold : Q;
  violated : bool
}.

(** [interface ModerationResult] *)
Record ModerationResult := mkResult {
  safe : bool;
  flagged : bool;
  action : Action;
  categories : list CategoryResult;
  isChecking : bool;
  error : option string
}.

(** The [metadata] object the video component attaches to its request. *)
Record Metadata := mkMetadata {
  totalFrames : nat;
  videoDuration : Double.double;
  filename : string;
  fileSize : Z;
  demoMode : bool
}.

(** [CheckRequest] *)
Record CheckRequest := mkRequest {
  content : jsstring;
  policyId : string;
  contentType : option ContentType;
  metadata : option Metadata
}.

(** The fields of [CheckResponse] the hook reads; [categories] may be
    missing at run time (the hook writes [response.categories || []]). *)
Record CheckResponse := mkResponse {
  response_safe : bool;
  response_flagged : bool;
  response_action : Action;
  response_categories : option (list CategoryResult)
}.

Record JsError := mkError {
  name : string;
  message : string
}.

(** The argument of [check]: [string | CheckRequest]. *)
Inductive Content :=
| Text (s : jsstring)
| Request (r : CheckRequest).

(** [UseModerationOptions], after the defaults were applied; of the two
    callbacks only their presence matters, their invocations are logged. *)
Record Options := mkOptions {
  opt_policyId : string;
  debounceMs : Z;
  enabled : bool;
  has_onCheck : bool;
  has_onError : bool
}.

(** [debounceMs = 500], [enabled = true] *)
Definition default_options (policy : string) : Options :=
  mkOptions policy 500 true false false.

Inductive Callback :=
| OnCheck (response : CheckResponse)
| OnError (err : JsError).

(** A pending [setTimeout]: its handle, the instant it is due, and the
    [content] its callback closes over. *)
Record Timer := mkTimer {
  handle : nat;
  due : Z;
  captured : Content
}.

(** The hook instance and the part of the JavaScript environment it acts
    on.  [result], [client], [timeoutRef] and [abortControllerRef] are the
    hook's own state and refs.  [clock] is the current instant, [timers]
    the pending timeouts, [inflight] the calls of [client.check] whose
    promise is not settled yet, [aborted] the controllers on which
    [abort()] was called.  [remote_calls] and [callbacks] log the requests
    handed to the client and the invocations of [onCheck] and [onError];
    [delivered] logs the requests whose outcome was written to [result]. *)
Record state := mkState {
  result : ModerationResult;
  client : bool;
  timeoutRef : option nat;
  abortControllerRef : option nat;
  clock : Z;
  timers : list Timer;
  next_handle : nat;
  next_controller : nat;
  aborted : list nat;
  inflight : list (nat * CheckRequest);
  next_request : nat;
  remote_calls : list (nat * CheckRequest);
  callbacks : list Callback;
  delivered : list nat
}.

(** The value [setResult] receives for empty content, which is also the
    initial state of the hook. *)
Definition safe_result : ModerationResult :=
  mkResult true false allow [] false None.

(** The hook after its first render; [client] tells whether the effect
    created a [ModerationClient] (it does not for an empty [apiKey]). *)
Definition init (client : bool) : state :=
  mkState safe_result client None None 0 [] 1 1 [] [] 1 [] [] [].

(** [setResult((prev) => ({ ...prev, isChecking: true, error: null }))] *)
Definition checking (prev : ModerationResult) : ModerationResult :=
  mkResult (safe prev) (flagged prev) (action prev) (categories prev) true None.

(** The result built from a response. *)
Definition of_response (response : CheckResponse) : ModerationResult :=
  mkResult (response_safe response) (response_flagged response)
           (response_action response)
           (default [] (response_categories response)) false None.

(** [error.message || 'Failed to check content'] *)
Definition message_of (err : JsError) : string :=
  if bool_decide (message err = "") then "Failed to check content"
  else message err.

(** The result after a failed request. *)
Definition failed (err : JsError) (prev : ModerationResult) : ModerationResult :=
  mkResult (safe prev) (flagged prev) (action prev) (categories prev) false
           (Some (message_of err)).

(** The request the timer callback builds:
    [typeof content === 'string' ? { content, policyId, contentType: 'text' }
     : { ...content, policyId }]. *)
Definition checkRequest (opts : Options) (c : Content) : CheckRequest :=
  match c with
  | Text s => mkRequest s (opt_policyId opts) (Some text) None
  | Request r =>
      mkRequest (content r) (opt_policyId opts) (contentType r) (metadata r)
  end.

(** [typeof content === 'string' && !content.trim()] *)
Definition is_empty (c : Content) : bool :=
  match c with
  | Text s => negb (truthy (trim s))
  | Request _ => false
  end.

(** The string a piece of content carries. *)
Definition content_of (c : Content) : jsstring :=
  match c with
  | Text s => s
  | Request r => content r
  end.

(** [clearTimeout(h)] *)
Definition clearTimeout (h : nat) (ts : list Timer) : list Timer :=
  filter (λ t, handle t ≠ h) ts.

Definition find_timer (h : nat) (ts : list Timer) : option Timer :=
  List.find (λ t, Nat.eqb (handle t) h) ts.

Definition find_request (rid : nat) (rs : list (nat * CheckRequest))
  : option CheckRequest :=
  snd <$> List.find (λ r, Nat.eqb (fst r) rid) rs.

Definition remove_request (rid : nat) (rs : list (nat * CheckRequest))
  : list (nat * CheckRequest) :=
  filter (λ r, fst r ≠ rid) rs.

(** The delay [setTimeout] runs a timer with.  A delay from 1 to
    [TIMEOUT_MAX = 2^31 - 1] milliseconds is taken as it is.  Any other
    number (zero, a negative one, one that does not fit 32 bits) does not
    delay: the timers of Node and jsdom replace it by 1 ms, the least they
    wait, so the timer runs as soon as possible; that millisecond is not
    resolved here, such a timer is due at once. *)
Definition TIMEOUT_MAX : Z := 2147483647.

Definition setTimeout_delay (ms : Z) : Z :=
  if bool_decide (1 ≤ ms ≤ TIMEOUT_MAX) then ms else 0.

(** [check(content)]: the synchronous body of the callback returned by the
    hook. *)
Definition check (opts : Options) (c : Content) (s : state) : state :=
  if negb (enabled opts) || negb (client s) then s
  else
    (* Cancel previous request *)
    let aborted' :=
      match abortControllerRef s with
      | Some ctl => ctl :: aborted s
      | None => aborted s
      end in
    (* Clear previous timeout *)
    let timers' :=
      match timeoutRef s with
      | Some h => clearTimeout h (timers s)
      | None => timers s
      end in
    if is_empty c then
      (* Empty content is always safe *)
      mkState safe_result (client s) (timeoutRef s) (abortControllerRef s)
              (clock s) timers' (next_handle s) (next_controller s) aborted'
              (inflight s) (next_request s) (remote_calls s) (callbacks s)
              (delivered s)
    else
      (* Debounce the check *)
      let h := next_handle s in
      mkState (checking (result s)) (client s) (Some h) (abortControllerRef s)
              (clock s)
              (timers' ++ [mkTimer h (clock s + setTimeout_delay (debounceMs opts))
                                  c])
              (S h) (next_controller s) aborted'
              (inflight s) (next_request s) (remote_calls s) (callbacks s)
              (delivered s).

(** The [catch] block of the timer callback. *)
Definition on_rejected (opts : Options) (rid : option nat) (err : JsError)
    (s : state) : state :=
  if bool_decide (name err = "AbortError") then s
  else
    mkState (failed err (result s)) (client s) (timeoutRef s)
            (abortControllerRef s) (clock s) (timers s) (next_handle s)
            (next_controller s) (aborted s) (inflight s) (next_request s)
            (remote_calls s)
            (if has_onError opts then callbacks s ++ [OnError err]
             else callbacks s)
            (match rid with Some r => delivered s ++ [r] | None => delivered s end).

(** What dereferencing a null [clientRef.current] throws. *)
Definition null_client_error : JsError :=
  mkError "TypeError" "Cannot read properties of null (reading 'check')".

(** The timer callback, up to its [await]: a new controller is stored in
    the ref, the request is built and handed to the client.  The
    controller is not an argument of [client.check]. *)
Definition fire (opts : Options) (t : Timer) (s : state) : state :=
  let ctl := next_controller s in
  let timers' := clearTimeout (handle t) (timers s) in
  let request := checkRequest opts (captured t) in
  if client s then
    let rid := next_request s in
    mkState (result s) (client s) (timeoutRef s) (Some ctl) (clock s)
            timers' (next_handle s) (S ctl) (aborted s)
            (inflight s ++ [(rid, request)]) (S rid)
            (remote_calls s ++ [(rid, request)]) (callbacks s) (delivered s)
  else
    on_rejected opts None null_client_error
      (mkState (result s) (client s) (timeoutRef s) (Some ctl) (clock s)
               timers' (next_handle s) (S ctl) (aborted s)
               (inflight s) (next_request s) (remote_calls s) (callbacks s)
               (delivered s)).

(** The timer callback after the [await], when the promise is fulfilled. *)
Definition on_fulfilled (opts : Options) (rid : nat) (response : CheckResponse)
    (s : state) : state :=
  mkState (of_response response) (client s) (timeoutRef s)
          (abortControllerRef s) (clock s) (timers s) (next_handle s)
          (next_controller s) (aborted s) (inflight s) (next_request s)
          (remote_calls s)
          (if has_onCheck opts then callbacks s ++ [OnCheck response]
           else callbacks s)
          (delivered s ++ [rid]).

Definition settle (rid : nat) (s : state) : state :=
  mkState (result s) (client s) (timeoutRef s) (abortControllerRef s)
          (clock s) (timers s) (next_handle s) (next_controller s) (aborted s)
          (remove_request rid (inflight s)) (next_request s) (remote_calls s)
          (callbacks s) (delivered s).

Definition advance (dt : Z) (s : state) : state :=
  mkState (result s) (client s) (timeoutRef s) (abortControllerRef s)
          (clock s + dt) (timers s) (next_handle s) (next_controller s)
          (aborted s) (inflight s) (next_request s) (remote_calls s)
          (callbacks s) (delivered s).

(** What drives the hook: the caller invokes [check]; time passes; a
    pending timer that is due runs its callback; the promise of a request
    in flight is fulfilled or rejected. *)
Inductive event :=
| Check (c : Content)
| Tick (dt : Z)
| Fire (h : nat)
| Resolve (rid : nat) (response : CheckResponse)
| Reject (rid : nat) (err : JsError).

(** An event that cannot happen in the current state (a timer that is not
    pending or not due, a request that is not in flight, time running
    backwards) leaves the state as it is. *)
Definition step (opts : Options) (s : state) (e : event) : state :=
  match e with
  | Check c => check opts c s
  | Tick dt => if bool_decide (0 ≤ dt) then advance dt s else s
  | Fire h =>
      match find_timer h (timers s) with
      | Some t => if bool_decide (due t ≤ clock s) then fire opts t s else s
      | None => s
      end
  | Resolve rid response =>
      match find_request rid (inflight s) with
      | Some _ => on_fulfilled opts rid response (settle rid s)
      | None => s
      end
  | Reject rid err =>
      match find_request rid (inflight s) with
      | Some _ => on_rejected opts (Some rid) err (settle rid s)
      | None => s
      end
  end.

Definition run (opts : Options) (evs : list event) (s : state) : state :=
  fold_left (step opts) evs s.

Definition is_check (e : event) : bool :=
  match e with Check _ => true | _ => false end.

(** *** Invariants of a hook that receives no new [check] *)

(** Nothing pending and nothing in flight: without a new [check] nothing
    happens any more, except that time passes. *)
Definition idle (s0 s : state) : Prop :=
  timers s = [] ∧ inflight s = [] ∧ result s = result s0 ∧
  remote_calls s = remote_calls s0 ∧ callbacks s = callbacks s0 ∧
  delivered s = delivered s0.


End UseModeration.

(** ** The moderated textarea ([ModeratedTextarea]) *)

Module Textarea.
Import JsString UseModeration.

(** The props [handleChange] reads; [blockUnsafe = false] by default. *)
Record Props := mkProps {
  blockUnsafe : bool;
  has_onChange : bool
}.

(** An invocation of [onChange(newValue, { safe, flagged, action })]. *)
Record Change := mkChange {
  value : jsstring;
  change_safe : bool;
  change_flagged : bool;
  change_action : Action
}.

(** The component's [internalValue] and the log of [onChange] calls. *)
Record state := mkState {
  internalValue : jsstring;
  changes : list Change
}.

(** [handleChange], with [result] the moderation result of the current
    render and [newValue] the event's [e.target.value]. *)
Definition handleChange (props : Props) (result : ModerationResult)
    (newValue : jsstring) (st : state) : state :=
  (* If blockUnsafe is true and content is unsafe, prevent change *)
  if blockUnsafe props && negb (safe result)
     && (length (internalValue st) <? length newValue)%nat
  then st
  else
    mkState newValue
            (if has_onChange props then
               changes st ++ [mkChange newValue (safe result) (flagged result)
                                       (action result)]
             else changes st).

(** A series of change events, each with the result current at its time. *)
Definition typing (props : Props) (evs : list (ModerationResult * jsstring))
    (st : state) : state :=
  fold_left (λ st ev, handleChange props (fst ev) (snd ev) st) evs st.

End Textarea.

(** ** The moderated video upload ([ModeratedVideoUpload.tsx]) *)

Module VideoUpload.
Import JsString UseModeration.

Local Open Scope Q_scope.

(** [ModeratedVideoUploadProps]: what the caller passes; an optional prop
    that is left out is [None]. *)
Record Props := mkProps {
  policyId : string;
  maxSizeMB : option Q;
  maxDurationSeconds : option Double.double;
  acceptedFormats : option (list string);
  blockUnsafe : option bool;
  extractFramesCount : option nat;
  disabled : option bool;
  has_onReject : bool;
  has_onModerationResult : bool;
  has_onModerationError : bool
}.

(** The props after the defaults of the parameter list were applied. *)
Record Settings := mkSettings {
  the_policyId : string;
  the_maxSizeMB : Q;
  the_maxDurationSeconds : Double.double;
  the_acceptedFormats : list string;
  the_blockUnsafe : bool;
  the_extractFramesCount : nat;
  the_disabled : bool;
  reports_rejections : bool;
  reports_results : bool;
  reports_errors : bool
}.

(** [maxSizeMB = 100, maxDurationSeconds = 300,
     acceptedFormats = ['video/mp4', 'video/webm', 'video/quicktime'],
     blockUnsafe = true, extractFramesCount = 3, disabled = false] *)
Definition with_defaults (p : Props) : Settings :=
  mkSettings (policyId p)
             (default 100 (maxSizeMB p))
             (default (Double.of_Z 300) (maxDurationSeconds p))
             (default ["video/mp4"; "video/webm"; "video/quicktime"]%string
                      (acceptedFormats p))
             (default true (blockUnsafe p))
             (default 3%nat (extractFramesCount p))
             (default false (disabled p))
             (has_onReject p) (has_onModerationResult p)
             (has_onModerationError p).

(** The props of a caller who passes the required ones only. *)
Definition required_only (policy : string) : Props :=
  mkProps policy None None None None None None false false false.

(** The options the component passes to [useModeration]:
    [debounceMs: 0, enabled: !disabled]. *)
Definition hook_options (cfg : Settings) : Options :=
  mkOptions (the_policyId cfg) 0 (negb (the_disabled cfg))
            (reports_results cfg) (reports_errors cfg).

(** A [File]. *)
Record File := mkFile {
  file_name : string;
  file_size : Z;
  file_type : string
}.

(** The [video] element created for the file, as the browser presents it:
    whether its metadata loads, its [duration] in seconds, the image
    [toDataURL] yields once a seek to a given time has completed, and
    whether [getContext('2d')] succeeds on the component's canvas and on
    a canvas created by [extractFrames].  The seeks the component issues
    are taken to complete. *)
Record Video := mkVideo {
  loads : bool;
  duration : Double.double;
  frame_at : Double.double → jsstring;
  canvas_context : bool;
  created_context : bool
}.

(** Why a file was rejected ([uploadError], and the reason given to
    [onReject]). *)
Inductive Rejection :=
| InvalidType
| SizeExceeded
| DurationExceeded
| MetadataFailed
| Thrown (message : string).

(** What the component does to the video element: it sets [currentTime],
    and in the [onseeked] handler, when that seek has completed, draws the
    frame and reads it back. *)
Inductive VideoOp :=
| Seek (time : Double.double)
| Capture (time : Double.double).

(** [a > b] on sizes. *)
Definition exceeds (a b : Q) : bool := negb (Qle_bool a b).

(** [validateFile] *)
Definition validateFile (cfg : Settings) (f : File) : option Rejection :=
  if negb (bool_decide (file_type f ∈ the_acceptedFormats cfg)) then
    Some InvalidType
  else if exceeds (inject_Z (file_size f) / inject_Z (1024 * 1024))
                  (the_maxSizeMB cfg) then
    Some SizeExceeded
  else None.

(** [const seekTime = Math.min(1, video.duration * 0.1)] *)
Definition seekTime (v : Video) : Double.double :=
  Double.min (Double.of_Z 1) (Double.mul (duration v) Double.tenth).

(** [generateThumbnail]: one seek, one capture; it throws when the canvas
    has no 2d context. *)
Definition generateThumbnail (v : Video) : string + (jsstring * list VideoOp) :=
  if canvas_context v then
    inr (frame_at v (seekTime v), [Seek (seekTime v); Capture (seekTime v)])
  else inl "Canvas context not available"%string.

(** The state of [extractFrames]: the [frames] array, the operations on
    the video so far, and the progress last reported. *)
Record Extraction := mkExtraction {
  frames : list jsstring;
  ops : list VideoOp;
  progress : Double.double
}.

(** One turn of the [for] loop: [currentTime] is set to [i * interval];
    the loop is suspended until [onseeked] runs, which captures the frame,
    pushes it and reports [((i + 1) / extractFramesCount) * 100]. *)
Definition extract_one (v : Video) (count : nat) (interval : Double.double)
    (i : nat) (acc : Extraction) : Extraction :=
  let time := Double.mul (Double.of_nat i) interval in
  mkExtraction (frames acc ++ [frame_at v time])
               (ops acc ++ [Seek time; Capture time])
               (Double.mul (Double.div (Double.of_nat (S i))
                                       (Double.of_nat count))
                           (Double.of_Z 100)).

(** [for (let i = 0; i < extractFramesCount; i++)], entered at [i] with
    [remaining] turns to go. *)
Fixpoint extract_loop (v : Video) (count : nat) (interval : Double.double)
    (remaining i : nat) (acc : Extraction) : Extraction :=
  match remaining with
  | O => acc
  | S remaining' =>
      extract_loop v count interval remaining' (S i)
                   (extract_one v count interval i acc)
  end.

(** [extractFrames]: [interval = video.duration / extractFramesCount]; it
    throws when the created canvas has no 2d context. *)
Definition extractFrames (cfg : Settings) (v : Video) : string + Extraction :=
  if created_context v then
    let count := the_extractFramesCount cfg in
    let interval := Double.div (duration v) (Double.of_nat count) in
    inr (extract_loop v count interval count 0
                      (mkExtraction [] [] (Double.of_Z 0)))
  else inl "Failed to get canvas context"%string.

(** [extractFrames] cut at its [await]: the loop is either suspended in
    turn [i], having set [currentTime] and waiting for [onseeked], or it
    has left the loop. *)
Inductive Sampler :=
| Seeking (i : nat) (acc : Extraction)
| Finished (acc : Extraction).

(** The loop test at [i] and, when it holds, [video.currentTime = time]. *)
Definition enter (count : nat) (interval : Double.double) (i : nat)
    (acc : Extraction) : Sampler :=
  if (i <? count)%nat then
    Seeking i (mkExtraction (frames acc)
                            (ops acc
                             ++ [Seek (Double.mul (Double.of_nat i) interval)])
                            (progress acc))
  else Finished acc.

(** The [onseeked] handler of the turn the loop is suspended in, followed
    by the loop up to its next suspension. *)
Definition seeked (v : Video) (count : nat) (interval : Double.double)
    (s : Sampler) : Sampler :=
  match s with
  | Seeking i acc =>
      let time := Double.mul (Double.of_nat i) interval in
      enter count interval (S i)
            (mkExtraction (frames acc ++ [frame_at v time])
                          (ops acc ++ [Capture time])
                          (Double.mul (Double.div (Double.of_nat (S i))
                                                  (Double.of_nat count))
                                      (Double.of_Z 100)))
  | Finished acc => Finished acc
  end.

Definition taken (s : Sampler) : Extraction :=
  match s with Seeking _ acc => acc | Finished acc => acc end.

(** The sampler after [k] seeks have completed. *)
Definition sampler_after (v : Video) (count : nat) (k : nat) : Sampler :=
  let interval := Double.div (duration v) (Double.of_nat count) in
  Nat.iter k (seeked v count interval)
           (enter count interval 0 (mkExtraction [] [] (Double.of_Z 0))).

(** The request of the demo mode: the first frame, with the number of
    frames in the metadata. *)
Definition frame_request (cfg : Settings) (f : File) (v : Video)
    (frames : list jsstring) : CheckRequest :=
  mkRequest (hd [] frames) (the_policyId cfg) (Some video)
            (Some (mkMetadata (length frames) (duration v) (file_name f)
                              (file_size f) true)).

(** What [processFile] leaves behind: the component's state, the calls
    of [onReject], the operations performed on the video element, and the
    moderation hook. *)
Record Outcome := mkOutcome {
  uploadError : option Rejection;
  rejections : list Rejection;
  thumbnail : option jsstring;
  extracted : list jsstring;
  video_ops : list VideoOp;
  frameExtractionProgress : Double.double;
  hook : UseModeration.state
}.

Definition reject (cfg : Settings) (why : Rejection)
    (thumb : option jsstring) (done : list VideoOp)
    (h : UseModeration.state) : Outcome :=
  mkOutcome (Some why) (if reports_rejections cfg then [why] else [])
            thumb [] done (Double.of_Z 0) h.

(** [processFile], together with the [onloadedmetadata] and [onerror]
    handlers it installs, run to completion. *)
Definition processFile (cfg : Settings) (f : File) (v : Video)
    (h : UseModeration.state) : Outcome :=
  match validateFile cfg f with
  | Some why => reject cfg why None [] h
  | None =>
      if negb (loads v) then reject cfg MetadataFailed None [] h
      else if Double.gtb (duration v) (the_maxDurationSeconds cfg) then
        reject cfg DurationExceeded None [] h
      else
        match generateThumbnail v with
        | inl message => reject cfg (Thrown message) None [] h
        | inr (thumb, thumb_ops) =>
            match extractFrames cfg v with
            | inl message => reject cfg (Thrown message) (Some thumb) thumb_ops h
            | inr ex =>
                mkOutcome None [] (Some thumb) (frames ex)
                          (thumb_ops ++ ops ex) (progress ex)
                          (if (0 <? length (frames ex))%nat then
                             check (hook_options cfg)
                                   (Request (frame_request cfg f v (frames ex)))
                                   h
                           else h)
            end
        end
  end.

(** The times the specification names: [i * (d / n)] for [i] in [[0, n)],
    as numbers. *)
Definition sample_times (d : Double.double) (n : nat) : list Double.double :=
  map (λ i, Double.mul (Double.of_nat i) (Double.div d (Double.of_nat n)))
      (seq 0 n).

(** The same settings with another frame count. *)
Definition with_frame_count (n : nat) (cfg : Settings) : Settings :=
  mkSettings (the_policyId cfg) (the_maxSizeMB cfg)
             (the_maxDurationSeconds cfg) (the_acceptedFormats cfg)
             (the_blockUnsafe cfg) n (the_disabled cfg)
             (reports_rejections cfg) (reports_results cfg)
             (reports_errors cfg).

(** A clip used in the examples: an MP4 file of about one megabyte whose
    frame at time [t] is identified by the whole seconds of [t]. *)
Definition sample_file : File := mkFile "clip.mp4" 1000000 "video/mp4".

Definition sample_video (seconds : Z) : Video :=
  mkVideo true (Double.of_Z seconds) (λ t, [Z.to_N (Double.floor t)]) true true.

(** A video is accepted when its file passes [validateFile], its metadata
    loads and its duration does not exceed the maximum. *)
Definition accepted (cfg : Settings) (f : File) (v : Video) : bool :=
  bool_decide (validateFile cfg f = None) && loads v
  && negb (Double.gtb (duration v) (the_maxDurationSeconds cfg)).

End VideoUpload.

(** ** Rate limiter: runs and their answers *)

Module RateLimiterRuns.
Import RateLimiter.

(** The answers [isLimited] gives to the calls of a run, in order
    ([true] means limited). *)
Fixpoint answers (evs : list event) (rl : t) : list bool :=
  match evs with
  | [] => []
  | Call g now :: evs' =>
      fst (isLimited now g rl) :: answers evs' (step rl (Call g now))
  | Sweep now :: evs' => answers evs' (step rl (Sweep now))
  end.

Definition is_call (e : event) : bool :=
  match e with Call _ _ => true | Sweep _ => false end.

(** The events that can touch the entry of guild [g]. *)
Definition concerns (g : string) (e : event) : bool :=
  match e with
  | Call h _ => bool_decide (h = g)
  | Sweep _ => true
  end.

(** A clock that does not run backwards: the readings of the events are
    nondecreasing, starting at or after [from]. *)
Fixpoint monotone (from : Z) (evs : list event) : Prop :=
  match evs with
  | [] => True
  | e :: evs' => from ≤ time_of e ∧ monotone (time_of e) evs'
  end.

(** Two limiters with the same parameters and the same entry for [g]. *)
Definition agree (g : string) (rl1 rl2 : t) : Prop :=
  timestamps_of rl1 g = timestamps_of rl2 g ∧
  windowMs rl1 = windowMs rl2 ∧ maxRequests rl1 = maxRequests rl2.

(** Two limiters with the same parameters that hold, for every guild, the
    same timestamps inside the window that ends at [now]. *)
Definition same_recent (now : Z) (rl1 rl2 : t) : Prop :=
  windowMs rl1 = windowMs rl2 ∧ maxRequests rl1 = maxRequests rl2 ∧
  ∀ g, recent (windowMs rl1) now (timestamps_of rl1 g)
       = recent (windowMs rl1) now (timestamps_of rl2 g).

End RateLimiterRuns.

(** ** Config store: the other operations, and the setup flow *)

Module ConfigStoreOps.
Import ConfigStore.

(** [POLICY_PRESETS], an object literal. *)
Definition POLICY_PRESETS : list (string * string) :=
  [("strict", "discord-strict"); ("balanced", "discord-balanced");
   ("permissive", "discord-permissive")]%string.

(** The names an object literal inherits from [Object.prototype]; looking
    one of them up yields a function or an object, never [undefined]. *)
Definition object_prototype_names : list string :=
  ["constructor"; "__defineGetter__"; "__defineSetter__"; "hasOwnProperty";
   "__lookupGetter__"; "__lookupSetter__"; "isPrototypeOf";
   "propertyIsEnumerable"; "toString"; "valueOf"; "__proto__";
   "toLocaleString"]%string.

(** What [getPolicyId] returns: a policy identifier, or the inherited
    member found under the preset's name. *)
Inductive PolicyRef :=
| PolicyId (id : string)
| InheritedMember (name : string).

Definition own_preset (preset : string) : option string :=
  snd <$> List.find (λ kv, String.eqb (fst kv) preset) POLICY_PRESETS.

(** [POLICY_PRESETS[preset] || POLICY_PRESETS['balanced']!]; the own
    values are non-empty strings and the inherited members are truthy. *)
Definition getPolicyId (preset : string) : PolicyRef :=
  match own_preset preset with
  | Some id => PolicyId id
  | None =>
      if bool_decide (preset ∈ object_prototype_names) then
        InheritedMember preset
      else PolicyId "discord-balanced"
  end.

(** The text columns of [discordServers]: [varchar(255)] for [guild_id],
    [guild_name] and [log_channel_id], [varchar(50)] for [policy_preset].
    A value fits a column when it is not longer than the column (its
    length is taken in bytes, which are at least as many as its
    characters) and has no NUL character, which the database cannot store
    in text. *)
Definition fits (n : nat) (s : string) : bool :=
  (String.length s <=? n)%nat
  && negb (existsb (Ascii.eqb Ascii.zero) (String.list_ascii_of_string s)).

Definition storable (guildId guildName policyPreset logChannelId : string)
  : bool :=
  fits 255 guildId && fits 255 guildName && fits 50 policyPreset
  && fits 255 logChannelId.

(** The constraint of the table that values which fit its columns can
    violate. *)
Inductive DbError := UniqueViolation.

(** [createServerConfig]; [id] and [now] are the values the defaults of
    the [id], [created_at] and [updated_at] columns produce.  The insert
    throws on a guild that has a row, before the invalidation.  It is
    modelled for [storable] values; the database refuses a value that does
    not fit its column with an error of its own. *)
Definition createServerConfig
    (id : string) (now : Z)
    (guildId guildName policyPreset logChannelId : string) (w : world)
  : (DbError + DiscordServer) * world :=
  match table w !! guildId with
  | Some _ => (inl UniqueViolation, w)
  | None =>
      let row := mkServer id guildId (Some guildName) policyPreset
                          (Some logChannelId) true now now in
      (inr row,
       invalidate guildId
         (mkWorld (<[guildId := row]> (table w)) (configCache w) (selects w)))
  end.

(** Calls of the store that each run to completion. *)
Inductive op :=
| Get (now1 now2 : Z) (guildId : string)
| Create (id : string) (now : Z)
         (guildId guildName policyPreset logChannelId : string)
| Update (now : Z) (guildId : string) (u : updates)
| Delete (guildId : string).

Definition apply_op (w : world) (o : op) : world :=
  match o with
  | Get now1 now2 g => snd (getServerConfig now1 now2 g w)
  | Create id now g name preset log =>
      snd (createServerConfig id now g name preset log w)
  | Update now g u => snd (updateServerConfig now g u w)
  | Delete g => snd (deleteServerConfig g w)
  end.

Definition perform (ops : list op) (w : world) : world :=
  fold_left apply_op ops w.

(** Every cached value is the row the table holds. *)
Definition coherent (w : world) : Prop :=
  ∀ g e, configCache w !! g = Some e → config e = table w !! g.

(** *** The setup flow ([commands/setup.ts]) *)

(** An entry of [setupState]. *)
Record Selection := mkSelection {
  selected_policy : string;
  selected_by : string
}.

(** [handlePolicySelect]: the selection is stored under the guild. *)
Definition handlePolicySelect (guildId selectedPolicy userId : string)
    (setupState : gmap string Selection) : gmap string Selection :=
  <[guildId := mkSelection selectedPolicy userId]> setupState.

(** How [handleChannelSelect] ends: with the "session expired" message,
    with the "setup complete" message ([isNew] as logged), or with the
    exception of a failed insert. *)
Inductive SetupReply :=
| SessionExpired
| SetupComplete (policy logChannelId : string) (isNew : bool)
| SetupFailed (err : DbError).

(** [interaction.guild?.name || 'Unknown Server'] *)
Definition name_or_unknown (guildName : option string) : string :=
  match guildName with
  | Some n => if bool_decide (n = ""%string) then "Unknown Server"%string else n
  | None => "Unknown Server"%string
  end.

(** [handleChannelSelect], run to completion.  [now1], [now2] are the
    clock readings of its [getServerConfig], [now3] the one of the write;
    [id] is the identifier a new row would get. *)
Definition handleChannelSelect
    (now1 now2 now3 : Z) (id : string)
    (guildId logChannelId : string) (guildName : option string)
    (setupState : gmap string Selection) (w : world)
  : SetupReply * gmap string Selection * world :=
  match setupState !! guildId with
  | None => (SessionExpired, setupState, w)
  | Some state =>
      let setupState' := delete guildId setupState in
      let (existingConfig, w1) := getServerConfig now1 now2 guildId w in
      match existingConfig with
      | Some _ =>
          let (_, w2) :=
            updateServerConfig now3 guildId
              (mkUpdates (Some (selected_policy state))
                         (Some (Some logChannelId)) (Some true)
                         (Some <$> guildName))
              w1 in
          (SetupComplete (selected_policy state) logChannelId false,
           setupState', w2)
      | None =>
          match createServerConfig id now3 guildId (name_or_unknown guildName)
                                   (selected_policy state) logChannelId w1 with
          | (inl err, w2) => (SetupFailed err, setupState', w2)
          | (inr _, w2) =>
              (SetupComplete (selected_policy state) logChannelId true,
               setupState', w2)
          end
      end
  end.

End ConfigStoreOps.

(** ** The moderation hook: unmounting, and invariants of its runs *)

Module UseModerationLife.
Import JsString UseModeration.

(** The cleanup of the hook's last effect, run when the component
    unmounts: the pending timeout is cleared and the controller in the ref
    is aborted. *)
Definition unmount (s : state) : state :=
  mkState (result s) (client s) (timeoutRef s) (abortControllerRef s)
          (clock s)
          (match timeoutRef s with
           | Some h => clearTimeout h (timers s)
           | None => timers s
           end)
          (next_handle s) (next_controller s)
          (match abortControllerRef s with
           | Some ctl => ctl :: aborted s
           | None => aborted s
           end)
          (inflight s) (next_request s) (remote_calls s) (callbacks s)
          (delivered s).

(** A call of [check] with content that is not empty. *)
Definition asks (e : event) : bool :=
  match e with
  | Check c => negb (is_empty c)
  | _ => false
  end.

Fixpoint checks_made (evs : list event) : nat :=
  match evs with
  | [] => 0
  | e :: evs' => ((if asks e then 1 else 0) + checks_made evs')%nat
  end.

(** The pending timers are at most the one [timeoutRef] holds, and they
    wait for content that is not empty. *)
Definition timers_owned (s : state) : Prop :=
  (length (timers s) ≤ 1)%nat ∧
  ∀ t, t ∈ timers s →
       timeoutRef s = Some (handle t) ∧ is_empty (captured t) = false.

(** Every pending timer and every request handed to the client stems from
    a [check] call among [evs] whose content was not empty. *)
Definition stems_from (opts : Options) (evs : list event) (s : state) : Prop :=
  (∀ t, t ∈ timers s →
        In (Check (captured t)) evs ∧ is_empty (captured t) = false) ∧
  (∀ r, r ∈ remote_calls s →
        ∃ c, In (Check c) evs ∧ is_empty c = false ∧
             snd r = checkRequest opts c).

(** The time a series of events lets pass. *)
Fixpoint elapsed (evs : list event) : Z :=
  match evs with
  | [] => 0
  | Tick dt :: evs' => Z.max 0 dt + elapsed evs'
  | _ :: evs' => elapsed evs'
  end.

(** The identifiers of a list of requests. *)
Definition ids (rs : list (nat * CheckRequest)) : list nat := map fst rs.

(** How the hook keeps track of its requests: identifiers are given out
    in increasing order; a request in flight was handed to the client; an
    outcome that was delivered belongs to a request that was handed to the
    client; and no request is in flight twice, or in flight after its
    outcome was delivered, or delivered twice. *)
Definition requests_tracked (s : state) : Prop :=
  (∀ r, r ∈ remote_calls s → (fst r < next_request s)%nat) ∧
  (∀ r, r ∈ inflight s → r ∈ remote_calls s) ∧
  (∀ rid, rid ∈ delivered s → rid ∈ ids (remote_calls s)) ∧
  NoDup (ids (inflight s) ++ delivered s).

(** The hook after its last [check], made in state [s0] and leaving the
    timer [t]: either the timer is still pending and nothing was sent, or
    it has fired and its request, the one for the content of that
    [check], is the one request sent since. *)
Definition after_last_check (opts : Options) (s0 : state) (t : Timer)
    (s : state) : Prop :=
  (timers s = [t] ∧ client s = true ∧ next_request s = next_request s0 ∧
   remote_calls s = remote_calls s0) ∨
  (timers s = [] ∧
   remote_calls s
   = remote_calls s0 ++ [(next_request s0, checkRequest opts (captured t))]).

End UseModerationLife.

(** ** The textarea with its hook *)

Module TextareaComponent.
Import JsString UseModeration Textarea.

(** The component: the [value] prop of the last render, its own state and
    the moderation hook. *)
Record component := mkComponent {
  value_prop : jsstring;
  text : Textarea.state;
  hook : UseModeration.state
}.

(** The effect [if (internalValue) check(internalValue)], which runs when
    [internalValue] has changed. *)
Definition check_effect (opts : Options) (c : component) : component :=
  if truthy (internalValue (text c)) then
    mkComponent (value_prop c) (text c)
                (check opts (Text (internalValue (text c))) (hook c))
  else c.

(** The first render with the given [value] prop ([client] tells whether
    the hook got a client), followed by its effects. *)
Definition mount (opts : Options) (client : bool) (value : jsstring)
  : component :=
  check_effect opts
    (mkComponent value (Textarea.mkState value []) (init client)).

(** A change event of the textarea: [handleChange], then the effect when
    [internalValue] is another string than before. *)
Definition typed (props : Props) (opts : Options) (newValue : jsstring)
    (c : component) : component :=
  let text' := handleChange props (result (hook c)) newValue (text c) in
  if bool_decide (internalValue text' = internalValue (text c)) then
    mkComponent (value_prop c) text' (hook c)
  else check_effect opts (mkComponent (value_prop c) text' (hook c)).

(** The parent renders the component with a [value] prop; when it differs
    from the previous one the sync effect stores it in [internalValue],
    and the check effect runs when that changes [internalValue]. *)
Definition receives (opts : Options) (value : jsstring) (c : component)
  : component :=
  if bool_decide (value = value_prop c) then c
  else if bool_decide (value = internalValue (text c)) then
    mkComponent value (text c) (hook c)
  else
    check_effect opts
      (mkComponent value (Textarea.mkState value (changes (text c))) (hook c)).

(** What happens to the component: the user edits the text; the parent
    passes a new value; the hook's timer or request makes progress (the
    hook's [check] is called by the effect only); or the component is
    rendered with a new [onModerationResult] or [onModerationError] (an
    inline function is a new one at every render), so that [check], whose
    dependencies they are, is a new callback and the check effect, which
    depends on [check], runs again. *)
Inductive event :=
| Typed (newValue : jsstring)
| Value (value : jsstring)
| Hook (e : UseModeration.event)
| Renewed.

Definition step (props : Props) (opts : Options) (c : component) (e : event)
  : component :=
  match e with
  | Typed newValue => typed props opts newValue c
  | Value value => receives opts value c
  | Hook e =>
      if is_check e then c
      else mkComponent (value_prop c) (text c) (UseModeration.step opts (hook c) e)
  | Renewed => check_effect opts c
  end.

Definition run (props : Props) (opts : Options) (evs : list event)
    (c : component) : component :=
  fold_left (step props opts) evs c.

Definition is_value (e : event) : bool :=
  match e with Value _ => true | _ => false end.

End TextareaComponent.

(** ** The moderated image upload ([ModeratedImageUpload]) *)

Module ImageUpload.
Import JsString UseModeration.

Local Open Scope Q_scope.

(** The props after their defaults: [maxSizeMB = 10], four image formats,
    [blockUnsafe = true], [disabled = false]. *)
Record Settings := mkSettings {
  policyId : string;
  maxSizeMB : Q;
  acceptedFormats : list string;
  blockUnsafe : bool;
  disabled : bool;
  has_onUpload : bool;
  has_onReject : bool;
  has_onModerationResult : bool;
  has_onModerationError : bool
}.

Definition default_settings (policy : string) : Settings :=
  mkSettings policy 10
             ["image/jpeg"; "image/png"; "image/gif"; "image/webp"]%string
             true false true true false false.

(** [debounceMs: 0, enabled: !disabled] *)
Definition hook_options (cfg : Settings) : Options :=
  mkOptions (policyId cfg) 0 (negb (disabled cfg))
            (has_onModerationResult cfg) (has_onModerationError cfg).

Record File := mkFile {
  file_name : string;
  file_size : Z;
  file_type : string
}.

Inductive Reason :=
| InvalidType
| SizeExceeded
| ViolatesGuidelines.

(** [validateFile] *)
Definition validateFile (cfg : Settings) (f : File) : option Reason :=
  if negb (bool_decide (file_type f ∈ acceptedFormats cfg)) then
    Some InvalidType
  else if negb (Qle_bool (inject_Z (file_size f) / inject_Z (1024 * 1024))
                         (maxSizeMB cfg)) then
    Some SizeExceeded
  else None.

(** An invocation of [onUpload(file, { safe, flagged, action })]. *)
Record Upload := mkUpload {
  uploaded : File;
  as_safe : bool;
  as_flagged : bool;
  as_action : Action
}.

(** The component's state, its hook, and the logs of [onUpload] and
    [onReject]. *)
Record component := mkComponent {
  file : option File;
  preview : option jsstring;
  uploadError : option Reason;
  hook : UseModeration.state;
  uploads : list Upload;
  rejections : list (File * Reason)
}.

Definition initial (client : bool) : component :=
  mkComponent None None None (init client) [] [].

(** [handleFileSelect] together with the [onloadend] handler of its
    reader; [dataUrl] is the string the reader produced for the file. *)
Definition handleFileSelect (cfg : Settings) (selected : option File)
    (dataUrl : jsstring) (c : component) : component :=
  match selected with
  | None =>
      mkComponent (file c) (preview c) None (hook c) (uploads c) (rejections c)
  | Some f =>
      match validateFile cfg f with
      | Some why =>
          mkComponent (file c) (preview c) (Some why) (hook c) (uploads c)
                      (if has_onReject cfg then rejections c ++ [(f, why)]
                       else rejections c)
      | None =>
          mkComponent (Some f) (Some dataUrl) None
                      (check (hook_options cfg)
                             (Request (mkRequest dataUrl (policyId cfg)
                                                 (Some image) None))
                             (hook c))
                      (uploads c) (rejections c)
      end
  end.

(** [handleRemove] *)
Definition handleRemove (c : component) : component :=
  mkComponent None None None (hook c) (uploads c) (rejections c).

(** [handleConfirm] *)
Definition handleConfirm (cfg : Settings) (c : component) : component :=
  match file c with
  | None => c
  | Some f =>
      if blockUnsafe cfg && negb (safe (result (hook c))) then
        mkComponent (file c) (preview c) (uploadError c) (hook c) (uploads c)
                    (if has_onReject cfg then
                       rejections c ++ [(f, ViolatesGuidelines)]
                     else rejections c)
      else
        handleRemove
          (mkComponent (file c) (preview c) (uploadError c) (hook c)
                       (if has_onUpload cfg then
                          uploads c ++ [mkUpload f (safe (result (hook c)))
                                                 (flagged (result (hook c)))
                                                 (action (result (hook c)))]
                        else uploads c)
                       (rejections c))
  end.

(** [canConfirm] of the default preview: its button is enabled. *)
Definition canConfirm (cfg : Settings) (r : ModerationResult) : bool :=
  negb (isChecking r) && (safe r || negb (blockUnsafe cfg)).

(** What happens to the component with the default preview: a file is
    chosen, the remove or the upload button is clicked (the latter only
    exists while a file is shown and does nothing while disabled), or the
    hook's timer or request makes progress. *)
Inductive event :=
| Choose (selected : option File) (dataUrl : jsstring)
| Remove
| Confirm
| Hook (e : UseModeration.event).

Definition step (cfg : Settings) (c : component) (e : event) : component :=
  match e with
  | Choose selected dataUrl => handleFileSelect cfg selected dataUrl c
  | Remove => handleRemove c
  | Confirm =>
      match file c with
      | Some _ =>
          if canConfirm cfg (result (hook c)) then handleConfirm cfg c else c
      | None => c
      end
  | Hook e =>
      if is_check e then c
      else mkComponent (file c) (preview c) (uploadError c)
                       (UseModeration.step (hook_options cfg) (hook c) e)
                       (uploads c) (rejections c)
  end.

Definition run (cfg : Settings) (evs : list event) (c : component)
  : component :=
  fold_left (step cfg) evs c.

End ImageUpload.

(** ** The video upload: its preview *)

Module VideoPreview.
Import JsString UseModeration VideoUpload.

(** The [processingStage] [processFile] leaves behind: ['Moderation
    complete'] after the check was handed over, the empty string on every
    path that ends in a rejection. *)
Definition processingStage (out : Outcome) : string :=
  match uploadError out with
  | None => "Moderation complete"%string
  | Some _ => ""%string
  end.

(** [result.isChecking || frameExtractionProgress < 100 || processingStage]
    of the default preview, as a truth value. *)
Definition isProcessing (r : ModerationResult) (out : Outcome) : bool :=
  isChecking r || Double.ltb (frameExtractionProgress out) (Double.of_Z 100)
  || negb (String.eqb (processingStage out) "").

(** [canConfirm]: the upload button of the default preview is enabled. *)
Definition canConfirm (cfg : Settings) (r : ModerationResult) (out : Outcome)
  : bool :=
  negb (isProcessing r out) && (safe r || negb (the_blockUnsafe cfg)).

End VideoPreview.

(** ** The message handler of the Discord bot ([events/messageCreate.ts]) *)

Module MessageCreate.
Import JsString ConfigStore ConfigStoreOps.

(** An attachment of a message. *)
Record Attachment := mkAttachment {
  contentType : option string;
  url : string
}.

(** What [permissionsFor(...)?.has(...)] answers for the two permissions
    the handler asks about. *)
Record Permissions := mkPermissions {
  manageMessages : bool;
  sendMessages : bool
}.

(** The parts of a [Message] the handler reads.  [botPermissions] is the
    value of [message.channel.isTextBased() && 'permissionsFor' in
    message.channel ? message.channel.permissionsFor(...) : null]. *)
Record Message := mkMessage {
  author_bot : bool;
  author_id : string;
  author_username : string;
  guild : option (string * string);
  content : jsstring;
  attachments : list Attachment;
  channel_id : string;
  channel_name : option string;
  botPermissions : option Permissions
}.

Inductive Action := allow | warn | flag | block.

(** How [vettly.checkMultimodal] ends: with a result, of which the
    handler reads the [action], or with an exception. *)
Inductive Vettly :=
| Answered (decisionId : string) (action : Action)
| Failed.

(** The request passed to [checkMultimodal]. *)
Record MultimodalRequest := mkMultimodal {
  text : option jsstring;
  images : option (list string);
  policy : PolicyRef;
  platform : string;
  guildId : string;
  guildName : string;
  channelId : string;
  channelName : option string;
  userId : string;
  username : string
}.

Inductive LogAction := blocked | flagged.

(** What the handler does to the outside world, in order. *)
Inductive Effect :=
| CheckMultimodal (request : MultimodalRequest)
| DeleteMessage
| NotifyMissingPermission
| SendModLog (action : LogAction)
| LogWarn (what : string)
| LogInfo (what : string)
| LogError (what : string).

(** [a.contentType?.startsWith('image/')] *)
Definition is_image (a : Attachment) : bool :=
  match contentType a with
  | Some ty => String.prefix "image/" ty
  | None => false
  end.

(** [message.attachments.filter(...).map(a => a.url)] *)
Definition image_urls (m : Message) : list string :=
  map url (List.filter is_image (attachments m)).

(** [message.content.trim().length > 0] *)
Definition hasText (m : Message) : bool := truthy (trim (content m)).

Definition request_for (cfg : DiscordServer) (gid gname : string) (m : Message)
  : MultimodalRequest :=
  mkMultimodal (if hasText m then Some (content m) else None)
               (if (0 <? length (image_urls m))%nat then Some (image_urls m)
                else None)
               (getPolicyId (policyPreset cfg))
               "discord" gid gname (channel_id m) (channel_name m)
               (author_id m) (author_username m).

(** The branch for [result.action === 'block']. *)
Definition on_block (m : Message) : list Effect :=
  (if negb (from_option manageMessages false (botPermissions m)) then
     LogWarn "Bot lacks Manage Messages permission - cannot delete blocked message"
     :: (if from_option sendMessages false (botPermissions m)
         then [NotifyMissingPermission] else [])
   else [DeleteMessage])
  ++ [SendModLog blocked; LogInfo "Message blocked"].

(** [onMessageCreate], run to completion.  [now1] and [now2] are the
    clock readings of its [getServerConfig], [now3] the one of
    [rateLimiter.isLimited]; [vettly] is how the moderation call ends if
    it is made. *)
Definition onMessageCreate
    (now1 now2 now3 : Z) (vettly : Vettly) (m : Message)
    (w : world) (rl : RateLimiter.t)
  : list Effect * world * RateLimiter.t :=
  (* Skip bots and DMs *)
  if author_bot m then ([], w, rl)
  else
    match guild m with
    | None => ([], w, rl)
    | Some (gid, gname) =>
        (* Get server config *)
        let (config, w1) := getServerConfig now1 now2 gid w in
        match config with
        | None => ([], w1, rl)
        | Some cfg =>
            if negb (enabled cfg) then ([], w1, rl)
            else if negb (hasText m) && (length (image_urls m) =? 0)%nat then
              ([], w1, rl)
            else
              (* Rate limit check *)
              let (limited, rl1) := RateLimiter.isLimited now3 gid rl in
              if limited then ([LogWarn "Rate limited"], w1, rl1)
              else
                let call := CheckMultimodal (request_for cfg gid gname m) in
                match vettly with
                | Failed => ([call; LogError "Moderation failed"], w1, rl1)
                | Answered _ block => (call :: on_block m, w1, rl1)
                | Answered _ flag =>
                    ([call; SendModLog flagged; LogInfo "Message flagged"],
                     w1, rl1)
                | Answered _ _ => ([call], w1, rl1)
                end
        end
    end.

Definition is_call (e : Effect) : bool :=
  match e with CheckMultimodal _ => true | _ => false end.

(** The moderation calls made for guild [g] among some effects. *)
Definition calls_for (g : string) (effects : list Effect) : nat :=
  length (List.filter (λ e, match e with
                           | CheckMultimodal r => String.eqb (guildId r) g
                           | _ => false
                           end) effects).

(** What acts on the message or tells the moderators. *)
Definition is_intervention (e : Effect) : bool :=
  match e with
  | DeleteMessage | NotifyMissingPermission | SendModLog _ => true
  | _ => false
  end.

(** A message as it arrives: the three clock readings, the way the
    moderation call would end, and the message. *)
Record Arrival := mkArrival {
  at1 : Z;
  at2 : Z;
  at3 : Z;
  outcome : Vettly;
  message : Message
}.

(** The handler on a series of messages, each handled to completion
    before the next; the effects are collected in order. *)
Fixpoint handle_all (arrivals : list Arrival) (w : world) (rl : RateLimiter.t)
  : list Effect * world * RateLimiter.t :=
  match arrivals with
  | [] => ([], w, rl)
  | a :: rest =>
      let '(effects, w1, rl1) :=
        onMessageCreate (at1 a) (at2 a) (at3 a) (outcome a) (message a) w rl in
      let '(effects', w2, rl2) := handle_all rest w1 rl1 in
      (effects ++ effects', w2, rl2)
  end.

(** The guild and the configuration of a message that gets as far as the
    rate limiter: it is not from a bot, it was sent in a guild whose
    configuration exists and is enabled, and it has text or an image. *)
Definition eligible (now1 now2 : Z) (m : Message) (w : world)
  : option (string * string * DiscordServer) :=
  if author_bot m then None
  else
    match guild m with
    | None => None
    | Some (gid, gname) =>
        match fst (getServerConfig now1 now2 gid w) with
        | Some cfg =>
            if enabled cfg && (hasText m || negb (length (image_urls m) =? 0)%nat)
            then Some (gid, gname, cfg) else None
        | None => None
        end
    end.

(** What follows the moderation call in the handler. *)
Definition reaction (vettly : Vettly) (m : Message) : list Effect :=
  match vettly with
  | Failed => [LogError "Moderation failed"]
  | Answered _ block => on_block m
  | Answered _ flag => [SendModLog flagged; LogInfo "Message flagged"]
  | Answered _ _ => []
  end.

(** *** The moderation log ([utils/mod-log.ts]) *)

(** [str.slice(0, end)] for an integer [end]. *)
Definition slice_to (str : jsstring) (finish : Z) : jsstring :=
  if bool_decide (finish < 0) then
    firstn (Z.to_nat (Z.max (Z.of_nat (length str) + finish) 0)) str
  else firstn (Z.to_nat finish) str.

(** [truncate] *)
Definition truncate (str : jsstring) (maxLength : Z) : jsstring :=
  if bool_decide (Z.of_nat (length str) ≤ maxLength) then str
  else slice_to str (maxLength - 3) ++ js "...".

End MessageCreate.

(** * Theorems *)

(** ** Rate limiter *)

Module RateLimiterFacts.
Import RateLimiter.

Lemma recent_recent w t now (l : list Z) :
  t ≤ now → recent w now (recent w t l) = recent w now l.
Proof.
  intros Hle. unfold recent. induction l as [|x l IH]; [done|].
  rewrite !filter_cons. repeat case_decide; rewrite ?filter_cons;
    repeat case_decide; try lia; by rewrite IH.
Qed.

Lemma recent_app w now (l1 l2 : list Z) :
  recent w now (l1 ++ l2) = recent w now l1 ++ recent w now l2.
Proof. apply filter_app. Qed.

Lemma recent_elapsed w now bound (l : list Z) :
  Forall (λ ts, ts ≤ bound) l → bound + w ≤ now → recent w now l = [].
Proof.
  intros Hall Hlate. unfold recent.
  induction Hall as [|x l Hx _ IH]; [done|].
  rewrite filter_cons. case_decide; [lia|done].
Qed.

Lemma recent_bounded w now bound (l : list Z) :
  Forall (λ ts, ts ≤ bound) l → Forall (λ ts, ts ≤ bound) (recent w now l).
Proof.
  intros Hall. unfold recent. apply Forall_forall. intros x Hx.
  apply list_elem_of_filter in Hx as [_ Hx].
  by eapply (proj1 (Forall_forall _ _) Hall).
Qed.

Lemma windowMs_step rl e : windowMs (step rl e) = windowMs rl.
Proof.
  destruct e as [g now|now]; simpl; [|done].
  unfold isLimited. by case_bool_decide.
Qed.

Lemma maxRequests_step rl e : maxRequests (step rl e) = maxRequests rl.
Proof.
  destruct e as [g now|now]; simpl; [|done].
  unfold isLimited. by case_bool_decide.
Qed.

Lemma windowMs_run evs rl : windowMs (run evs rl) = windowMs rl.
Proof.
  revert rl. induction evs as [|e evs IH]; intros rl; [done|].
  simpl. unfold run in IH. by rewrite IH, windowMs_step.
Qed.

Lemma maxRequests_run evs rl : maxRequests (run evs rl) = maxRequests rl.
Proof.
  revert rl. induction evs as [|e evs IH]; intros rl; [done|].
  simpl. unfold run in IH. by rewrite IH, maxRequests_step.
Qed.

(** One call, read off the code: the answer, and what is stored. *)
Lemma admitted_iff now g rl :
  admitted now g rl = true ↔
  Z.of_nat (length (recent (windowMs rl) now (timestamps_of rl g))) < maxRequests rl.
Proof.
  unfold admitted, isLimited. case_bool_decide; simpl; split; intros; (done || lia).
Qed.

Lemma isLimited_admitted now g rl :
  admitted now g rl = true →
  timestamps_of (snd (isLimited now g rl)) g
  = recent (windowMs rl) now (timestamps_of rl g) ++ [now].
Proof.
  unfold admitted, isLimited. case_bool_decide; simpl; [done|]. intros _.
  unfold timestamps_of at 1. simpl. by rewrite lookup_insert_eq.
Qed.

Lemma isLimited_rejected now g rl :
  admitted now g rl = false → snd (isLimited now g rl) = rl.
Proof. unfold admitted, isLimited. by case_bool_decide. Qed.

Lemma isLimited_other now g g' rl :
  g ≠ g' → timestamps_of (snd (isLimited now g rl)) g' = timestamps_of rl g'.
Proof.
  intros Hne. unfold isLimited. case_bool_decide; simpl; [done|].
  unfold timestamps_of. simpl. by rewrite lookup_insert_ne.
Qed.

Lemma cleanup_timestamps now g rl :
  timestamps_of (cleanup now rl) g = recent (windowMs rl) now (timestamps_of rl g).
Proof.
  unfold cleanup, timestamps_of. simpl. rewrite lookup_omap.
  destruct (requests rl !! g) as [l|]; simpl; [|done].
  case_bool_decide as Hlen; simpl; [|done].
  symmetry. by apply length_zero_iff_nil.
Qed.

(** Every admitted call whose timestamp is still inside the window at
    [now] is counted by the filter at [now]. *)
Lemma recent_count_run now g evs : ∀ rl,
  Forall (λ e, time_of e ≤ now ∧ now - time_of e < windowMs rl) evs →
  length (recent (windowMs rl) now (timestamps_of (run evs rl) g))
  = (length (recent (windowMs rl) now (timestamps_of rl g)) + admits g evs rl)%nat.
Proof.
  induction evs as [|e evs IH]; intros rl Hall; [simpl; lia|].
  apply Forall_cons in Hall as [[Hle Hin] Hall].
  change (run (e :: evs) rl) with (run evs (step rl e)).
  rewrite <- (windowMs_step rl e) at 1.
  rewrite IH by (by rewrite windowMs_step).
  rewrite windowMs_step. cbn [admits].
  destruct e as [g' t|t]; cbn [step time_of] in *.
  - case_bool_decide as Hg.
    + subst g'. destruct (admitted t g rl) eqn:Hadm.
      * rewrite isLimited_admitted by done.
        rewrite recent_app, recent_recent by done.
        rewrite length_app. unfold recent at 2.
        rewrite filter_cons, filter_nil. case_decide; [simpl; lia|lia].
      * rewrite isLimited_rejected by done. lia.
    + rewrite isLimited_other by done. lia.
  - rewrite cleanup_timestamps, recent_recent by done. lia.
Qed.

Lemma bounded_run bound g evs : ∀ rl,
  Forall (λ e, time_of e ≤ bound) evs →
  Forall (λ ts, ts ≤ bound) (timestamps_of rl g) →
  Forall (λ ts, ts ≤ bound) (timestamps_of (run evs rl) g).
Proof.
  induction evs as [|e evs IH]; intros rl Hall Hrl; [done|].
  apply Forall_cons in Hall as [Hle Hall].
  change (run (e :: evs) rl) with (run evs (step rl e)).
  apply IH; [done|].
  destruct e as [g' t|t]; cbn [step time_of] in *.
  - destruct (decide (g' = g)) as [->|Hne].
    + destruct (admitted t g rl) eqn:Hadm.
      * rewrite isLimited_admitted by done.
        apply Forall_app. split; [by apply recent_bounded|].
        by apply Forall_singleton.
      * by rewrite isLimited_rejected.
    + by rewrite isLimited_other.
  - rewrite cleanup_timestamps. by apply recent_bounded.
Qed.

(** C3. The defaults are a cap of 100 and a window of 60 s.  A call is
    admitted if and only if fewer than [maxRequests] recorded timestamps
    of the guild lie in the trailing window ([now - ts < windowMs]); the
    timestamp is recorded exactly when the call is admitted (a rejected
    call leaves the limiter unchanged).
    Consequently, on a limiter built by the constructor, once [cap]
    calls of a guild were admitted at times that are all still inside
    the window at [now], the call at [now] is rejected; and once the
    window has elapsed since the last event, the call is admitted again
    (for a positive cap). *)
Theorem rate_limiter_sliding_window
    (cap window : Z) (evs : list event) (g : string) (now later : Z) :
  0 < cap →
  Forall (λ e, time_of e ≤ now ∧ now - time_of e < window) evs →
  Z.of_nat (admits g evs (new cap window)) = cap →
  now + window ≤ later →
  maxRequests new_default = 100 ∧ windowMs new_default = 60000 ∧
  (∀ (rl : t) (t : Z) (h : string),
      (admitted t h rl = true ↔
       Z.of_nat (length (recent (windowMs rl) t (timestamps_of rl h)))
       < maxRequests rl) ∧
      (admitted t h rl = true →
       timestamps_of (snd (isLimited t h rl)) h
       = recent (windowMs rl) t (timestamps_of rl h) ++ [t]) ∧
      (admitted t h rl = false → snd (isLimited t h rl) = rl)) ∧
  admitted now g (run evs (new cap window)) = false ∧
  snd (isLimited now g (run evs (new cap window))) = run evs (new cap window) ∧
  admitted later g (run evs (new cap window)) = true.
Proof.
  intros Hcap Hall Hadm Hlater.
  assert (Hrej : admitted now g (run evs (new cap window)) = false).
  { apply not_true_is_false. rewrite admitted_iff.
    rewrite windowMs_run, maxRequests_run. cbn [windowMs maxRequests new].
    pose proof (recent_count_run now g evs (new cap window) Hall) as Hcount.
    cbn [windowMs new] in Hcount. lia. }
  split; [done|]. split; [done|]. split; [|split; [done|split]].
  - intros rl t h. split; [apply admitted_iff|].
    split; [apply isLimited_admitted|apply isLimited_rejected].
  - by apply isLimited_rejected.
  - apply admitted_iff.
    rewrite windowMs_run, maxRequests_run. cbn [windowMs maxRequests new].
    rewrite (recent_elapsed window later now); [simpl; lia| |done].
    apply bounded_run; [|done].
    eapply Forall_impl; [exact Hall|]. simpl. tauto.
Qed.

(** The scenario of the default limiter scaled down to a cap of two. *)
Lemma rate_limiter_sliding_window_witness :
  admitted 20 "guild" (run [Call "guild" 0; Sweep 5; Call "guild" 10] (new 2 60000))
  = false ∧
  admitted 60020 "guild" (run [Call "guild" 0; Sweep 5; Call "guild" 10] (new 2 60000))
  = true.
Proof.
  destruct (rate_limiter_sliding_window 2 60000
              [Call "guild" 0; Sweep 5; Call "guild" 10] "guild" 20 60020)
    as (_ & _ & _ & Hrej & _ & Hadm).
  - lia.
  - repeat constructor; simpl; lia.
  - vm_compute. reflexivity.
  - lia.
  - split; assumption.
Defined.

End RateLimiterFacts.

(** ** Config store *)

Module ConfigStoreFacts.
Import ConfigStore.

Lemma fetches_snoc g h w t c :
  fetches g (mkWorld t c (selects w ++ [h]))
  = (fetches g w + (if decide (h = g) then 1 else 0))%nat.
Proof.
  unfold fetches. simpl. rewrite filter_app, length_app.
  rewrite filter_cons, filter_nil. by case_decide.
Qed.

(** A call that misses sends exactly one query and caches what the
    database answered, [None] included. *)
Lemma getServerConfig_miss now1 now2 g w :
  fresh now1 (configCache w !! g) = false →
  getServerConfig now1 now2 g w
  = (table w !! g,
     mkWorld (table w) (<[g := mkEntry (table w !! g) now2]> (configCache w))
             (selects w ++ [g])).
Proof.
  intros Hmiss. unfold getServerConfig, getServerConfig_begin.
  by rewrite Hmiss.
Qed.

(** A call that hits returns the cached value and changes nothing. *)
Lemma getServerConfig_hit now1 now2 g w e :
  configCache w !! g = Some e → now1 - timestamp e < CACHE_TTL →
  getServerConfig now1 now2 g w = (config e, w).
Proof.
  intros He Hlt. unfold getServerConfig, getServerConfig_begin.
  rewrite He. simpl. by rewrite bool_decide_eq_true_2.
Qed.

Lemma fresh_invalidate now g w :
  fresh now (configCache (invalidate g w) !! g) = false.
Proof. unfold invalidate. simpl. by rewrite lookup_delete_eq. Qed.

(** C4. On a guild whose cache entry is missing or expired, the first of
    two successive [getServerConfig] calls sends one query and the second,
    made within [CACHE_TTL] (300 s) of the cached timestamp, sends none and
    returns the cached value, also when that value is [None]; after
    [updateServerConfig] (or the invalidation alone) the next call sends a
    query again and returns the row as it is now. *)
Theorem config_cache_read_through
    (w : world) (g : string) (now1 now2 now3 now4 : Z) :
  fresh now1 (configCache w !! g) = false →
  now3 - now2 < CACHE_TTL →
  let (r1, w1) := getServerConfig now1 now2 g w in
  let (r2, w2) := getServerConfig now3 now4 g w1 in
  CACHE_TTL = 300000 ∧
  r1 = table w !! g ∧ r2 = r1 ∧
  fetches g w1 = S (fetches g w) ∧ selects w2 = selects w1 ∧
  fetches g w2 = S (fetches g w) ∧
  (∀ (now5 now6 now7 : Z) (u : updates),
      let (_, w3) := updateServerConfig now5 g u w2 in
      let (r4, w4) := getServerConfig now6 now7 g w3 in
      r4 = table w3 !! g ∧ fetches g w4 = S (fetches g w2)) ∧
  (∀ (now6 now7 : Z),
      let (_, w3) := deleteServerConfig g w2 in
      let (r4, w4) := getServerConfig now6 now7 g w3 in
      r4 = None ∧ fetches g w4 = S (fetches g w2)) ∧
  (∀ (now6 now7 : Z),
      let (r4, w4) := getServerConfig now6 now7 g (invalidate g w2) in
      r4 = table w2 !! g ∧ fetches g w4 = S (fetches g w2)).
Proof.
  intros Hmiss Httl.
  rewrite getServerConfig_miss by done.
  erewrite getServerConfig_hit; [|apply lookup_insert_eq|done].
  simpl. split; [done|]. split; [done|]. split; [done|].
  assert (Hone : fetches g (mkWorld (table w)
                   (<[g := mkEntry (table w !! g) now2]> (configCache w))
                   (selects w ++ [g])) = S (fetches g w)).
  { rewrite fetches_snoc. rewrite decide_True by done. lia. }
  split; [done|]. split; [done|]. split; [done|]. split; [|split].
  - intros now5 now6 now7 u. unfold updateServerConfig.
    rewrite getServerConfig_miss by apply fresh_invalidate.
    split; [done|]. rewrite fetches_snoc, decide_True by done.
    unfold fetches. simpl. lia.
  - intros now6 now7. unfold deleteServerConfig.
    rewrite getServerConfig_miss by apply fresh_invalidate.
    split; [simpl; apply lookup_delete_eq|].
    rewrite fetches_snoc, decide_True by done.
    unfold fetches. simpl. lia.
  - intros now6 now7.
    rewrite getServerConfig_miss by apply fresh_invalidate.
    split; [done|]. rewrite fetches_snoc, decide_True by done.
    unfold fetches. simpl. lia.
Qed.

(** A guild without a row: the [None] answer is cached and served. *)
Lemma config_cache_read_through_witness :
  let w := mkWorld ∅ ∅ [] in
  let (r1, w1) := getServerConfig 1000 1010 "guild" w in
  let (r2, w2) := getServerConfig 200000 200010 "guild" w1 in
  r1 = None ∧ r2 = None ∧ fetches "guild" w2 = 1%nat.
Proof.
  pose proof (config_cache_read_through (mkWorld ∅ ∅ []) "guild"
                1000 1010 200000 200010) as H.
  simpl. simpl in H.
  destruct (getServerConfig 1000 1010 "guild" (mkWorld ∅ ∅ [])) as [r1 w1].
  destruct (getServerConfig 200000 200010 "guild" w1) as [r2 w2].
  destruct H as (_ & H1 & H2 & _ & _ & H3 & _).
  - reflexivity.
  - reflexivity.
  - subst r2. rewrite H1, H3. repeat split.
Defined.

End ConfigStoreFacts.

(** ** JavaScript strings *)

Module JsStringFacts.
Import JsString.







End JsStringFacts.

(** ** The moderation hook *)

Module UseModerationFacts.
Import JsString JsStringFacts UseModeration.

(** A delay [setTimeout] can represent is kept; no delay is negative or
    longer than asked for. *)
Lemma setTimeout_delay_kept ms :
  1 ≤ ms ≤ TIMEOUT_MAX → setTimeout_delay ms = ms.
Proof. intros H. unfold setTimeout_delay. by rewrite bool_decide_eq_true_2. Qed.

Lemma setTimeout_delay_bounds ms :
  0 ≤ setTimeout_delay ms ≤ Z.max 0 ms.
Proof. unfold setTimeout_delay. case_bool_decide; lia. Qed.







(** *** Requests in flight *)

(** A fulfilled request writes its response to [result] and calls
    [onCheck]; nothing in that step looks at [aborted]. *)
Lemma resolve_delivers opts s rid request response :
  find_request rid (inflight s) = Some request →
  let s' := step opts s (Resolve rid response) in
  result s' = of_response response ∧
  delivered s' = delivered s ++ [rid] ∧
  callbacks s' = (if has_onCheck opts then callbacks s ++ [OnCheck response]
                  else callbacks s).
Proof. intros Hin. simpl. by rewrite Hin. Qed.

(** Calling [check] again does not touch the requests in flight, so the
    earlier request is still delivered when it is fulfilled. *)
Lemma check_inflight opts c s : inflight (check opts c s) = inflight s.
Proof.
  unfold check. destruct (negb (enabled opts) || negb (client s)); [done|].
  by destruct (is_empty c).
Qed.

Lemma superseded_request_still_delivers opts c s rid request response :
  find_request rid (inflight s) = Some request →
  let s' := step opts (check opts c s) (Resolve rid response) in
  result s' = of_response response ∧
  delivered s' = delivered (check opts c s) ++ [rid].
Proof.
  intros Hin. cbn [step]. by rewrite check_inflight, Hin.
Qed.

(** C1 (as the code behaves). A request is sent for ["a"]; while it is in
    flight [check] is called for ["ab"], which aborts the controller in the
    ref; the response for ["a"] then arrives.  It is written to [result]
    and passed to [onCheck] although the call was superseded, and likewise
    a failure is written to [result] and passed to [onError]: the
    controller was never given to [client.check]. *)
Theorem superseded_result_is_delivered :
  let opts := mkOptions "balanced" 500 true true true in
  let responseA := mkResponse false true block None in
  let failureA := mkError "Error" "Moderation check failed" in
  let superseded :=
    run opts [Check (Text (js "a")); Tick 500; Fire 1; Check (Text (js "ab"))]
        (init true) in
  inflight superseded
  = [(1%nat, mkRequest (js "a") "balanced" (Some text) None)] ∧
  aborted superseded = [1%nat] ∧
  map captured (timers superseded) = [Text (js "ab")] ∧
  (let s := step opts superseded (Resolve 1 responseA) in
   result s = mkResult false true block [] false None ∧
   callbacks s = [OnCheck responseA] ∧ delivered s = [1%nat]) ∧
  (let s := step opts superseded (Reject 1 failureA) in
   result s = mkResult true false allow [] false (Some "Moderation check failed") ∧
   callbacks s = [OnError failureA] ∧ delivered s = [1%nat]).
Proof. vm_compute. repeat split; reflexivity. Qed.

(** *** Debouncing *)

Section Debounce.
Variable opts : Options.

Lemma idle_step s0 s e : idle s0 s → is_check e = false → idle s0 (step opts s e).
Proof.
  intros (Ht & Hi & Hrest) He. destruct e as [c|dt|h|rid r|rid err]; simpl.
  - done.
  - by case_bool_decide.
  - by rewrite Ht.
  - by rewrite Hi.
  - by rewrite Hi.
Qed.

Lemma idle_run s0 evs : ∀ s,
  idle s0 s → forallb (λ e, negb (is_check e)) evs = true →
  idle s0 (run opts evs s).
Proof.
  induction evs as [|e evs IH]; intros s Hs Hevs; [done|].
  simpl in Hevs. apply andb_true_iff in Hevs as [He Hevs].
  apply IH; [|done]. apply idle_step; [done|]. by destruct (is_check e).
Qed.

Lemma find_timer_singleton h (t : Timer) :
  find_timer h [t] = if Nat.eqb (handle t) h then Some t else None.
Proof. unfold find_timer. simpl. by destruct (Nat.eqb (handle t) h). Qed.

Lemma clearTimeout_singleton (t : Timer) : clearTimeout (handle t) [t] = [].
Proof.
  unfold clearTimeout. rewrite filter_cons, filter_nil.
  by rewrite decide_False by (by intros []).
Qed.

Lemma find_request_singleton rid rid' (request : CheckRequest) :
  find_request rid [(rid', request)]
  = if Nat.eqb rid' rid then Some request else None.
Proof. unfold find_request. simpl. by destruct (Nat.eqb rid' rid). Qed.

Lemma remove_request_singleton rid (request : CheckRequest) :
  remove_request rid [(rid, request)] = [].
Proof.
  unfold remove_request. rewrite filter_cons, filter_nil.
  by rewrite decide_False by (by intros []).
Qed.




(** [check] itself never hands a request to the client. *)
Lemma check_remote_calls c s : remote_calls (check opts c s) = remote_calls s.
Proof.
  unfold check. destruct (negb (enabled opts) || negb (client s)); [done|].
  by destruct (is_empty c).
Qed.



Lemma clearTimeout_ref_nil (ref : option nat) :
  match ref with Some h => clearTimeout h [] | None => [] end = [].
Proof. by destruct ref. Qed.

(** When every pending timer is the one [timeoutRef] holds, the
    [clearTimeout] of [check] leaves none pending. *)
Lemma clear_owned s :
  (∀ t, t ∈ timers s → timeoutRef s = Some (handle t)) →
  match timeoutRef s with
  | Some h => clearTimeout h (timers s)
  | None => timers s
  end = [].
Proof.
  intros Hown. apply elem_of_nil_inv. intros t Hin.
  destruct (timeoutRef s) as [h|] eqn:Href.
  - apply list_elem_of_filter in Hin as [Hne Hin].
    apply Hown in Hin. congruence.
  - apply Hown in Hin. congruence.
Qed.

Lemma content_checkRequest c : content (checkRequest opts c) = content_of c.
Proof. by destruct c. Qed.

End Debounce.

End UseModerationFacts.

(** ** The moderated textarea *)

Module TextareaFacts.
Import JsString UseModeration Textarea.

Lemma handleChange_length props result newValue st :
  blockUnsafe props = true → safe result = false →
  (length (internalValue (handleChange props result newValue st))
   ≤ length (internalValue st))%nat.
Proof.
  intros Hb Hs. unfold handleChange. rewrite Hb, Hs. simpl.
  destruct (Nat.ltb_spec (length (internalValue st)) (length newValue));
    simpl; lia.
Qed.

(** C10. With [blockUnsafe] set and an unsafe result, [handleChange]
    rejects a new value that is longer than the current one (the state is
    unchanged and [onChange] is not called) and accepts one of the same
    length or shorter ([onChange] is called with it); so the stored text
    does not grow, over any series of change events that all happen under
    an unsafe result. *)
Theorem unsafe_text_never_grows
    (props : Props) (result : ModerationResult) (newValue : jsstring)
    (st : state) :
  blockUnsafe props = true → safe result = false →
  let st' := handleChange props result newValue st in
  ((length (internalValue st) < length newValue)%nat → st' = st) ∧
  ((length newValue ≤ length (internalValue st))%nat →
   internalValue st' = newValue ∧
   changes st'
   = (if has_onChange props then
        changes st ++ [mkChange newValue false (flagged result) (action result)]
      else changes st)) ∧
  (length (internalValue st') ≤ length (internalValue st))%nat ∧
  (∀ evs : list (ModerationResult * jsstring),
      Forall (λ ev, safe (fst ev) = false) evs →
      (length (internalValue (typing props evs st))
       ≤ length (internalValue st))%nat).
Proof.
  intros Hb Hs st'. split; [|split; [|split]].
  - intros Hlt. subst st'. unfold handleChange. rewrite Hb, Hs. simpl.
    by rewrite (proj2 (Nat.ltb_lt _ _) Hlt).
  - intros Hle. subst st'. unfold handleChange. rewrite Hb, Hs. simpl.
    by rewrite (proj2 (Nat.ltb_ge _ _) Hle).
  - by apply handleChange_length.
  - intros evs. clear st'. revert st.
    induction evs as [|[r v] evs IH]; intros st Hall.
    + simpl. lia.
    + apply Forall_cons in Hall as [Hr Hall]. simpl in Hr.
      unfold typing. simpl. etransitivity; [by apply IH|].
      by apply handleChange_length.
Qed.

(** Typing one more character into a blocked text, then deleting one. *)
Lemma unsafe_text_never_grows_witness :
  let props := mkProps true true in
  let unsafe := mkResult false true block [] false None in
  let st := mkState (js "bad") [] in
  handleChange props unsafe (js "badd") st = st ∧
  internalValue (handleChange props unsafe (js "ba") st) = js "ba".
Proof.
  intros props unsafe st. split.
  - destruct (unsafe_text_never_grows props unsafe (js "badd") st)
      as (H & _); [reflexivity..|].
    apply H. simpl. lia.
  - destruct (unsafe_text_never_grows props unsafe (js "ba") st)
      as (_ & H & _); [reflexivity..|].
    apply H. simpl. lia.
Defined.

End TextareaFacts.

(** ** The moderated video upload *)

Module VideoUploadFacts.
Import JsString UseModeration VideoUpload.

(** The loop visits [i, i+1, ..., i+remaining-1] in order; each turn
    appends its frame, and its seek followed by its capture. *)
Lemma extract_loop_frames v count interval remaining : ∀ i acc,
  frames (extract_loop v count interval remaining i acc)
  = frames acc
    ++ map (λ j, frame_at v (Double.mul (Double.of_nat j) interval))
           (seq i remaining).
Proof.
  induction remaining as [|k IH]; intros i acc; simpl.
  - by rewrite app_nil_r.
  - rewrite IH. simpl. by rewrite <- app_assoc.
Qed.

Lemma extract_loop_ops v count interval remaining : ∀ i acc,
  ops (extract_loop v count interval remaining i acc)
  = ops acc
    ++ flat_map (λ j, [Seek (Double.mul (Double.of_nat j) interval);
                       Capture (Double.mul (Double.of_nat j) interval)])
                (seq i remaining).
Proof.
  induction remaining as [|k IH]; intros i acc; simpl.
  - by rewrite app_nil_r.
  - rewrite IH. simpl. by rewrite <- app_assoc.
Qed.

(** The loop is the sampler run until it has left the loop: every turn
    is resumed by the [onseeked] of its own seek. *)
Lemma sampler_finishes v count interval remaining : ∀ i acc,
  (i + remaining = count)%nat →
  Nat.iter remaining (seeked v count interval) (enter count interval i acc)
  = Finished (extract_loop v count interval remaining i acc).
Proof.
  induction remaining as [|k IH]; intros i acc Hsum.
  - simpl. unfold enter. by rewrite (proj2 (Nat.ltb_ge _ _)) by lia.
  - rewrite Nat.iter_succ_r. unfold enter at 1.
    rewrite (proj2 (Nat.ltb_lt _ _)) by lia. cbn [seeked frames ops progress].
    rewrite IH by lia. cbn [extract_loop]. unfold extract_one.
    by rewrite <- app_assoc.
Qed.

(** After [k] completed seeks the operations on the video are the [k]
    first turns, each a seek and then its capture, followed by the one
    seek that is outstanding, if the loop has not ended. *)
Lemma sampler_ops v count interval k : ∀ i acc,
  ops (taken (Nat.iter k (seeked v count interval) (enter count interval i acc)))
  = ops acc
    ++ flat_map (λ j, [Seek (Double.mul (Double.of_nat j) interval);
                       Capture (Double.mul (Double.of_nat j) interval)])
                (seq i (Nat.min k (count - i)))
    ++ (if (i + k <? count)%nat
        then [Seek (Double.mul (Double.of_nat (i + k)) interval)] else []).
Proof.
  induction k as [|k IH]; intros i acc.
  - simpl. rewrite Nat.add_0_r. unfold enter.
    destruct (i <? count)%nat; simpl; by rewrite ?app_nil_r.
  - rewrite Nat.iter_succ_r. unfold enter at 1.
    destruct (Nat.ltb_spec i count) as [Hlt|Hge].
    + cbn [seeked frames ops progress]. rewrite IH. cbn [ops].
      replace (Nat.min (S k) (count - i)) with (S (Nat.min k (count - S i)))
        by lia.
      replace (S i + k)%nat with (i + S k)%nat by lia.
      cbn [seq flat_map]. by rewrite <- !app_assoc.
    + replace (Nat.min (S k) (count - i)) with 0%nat by lia.
      rewrite (proj2 (Nat.ltb_ge _ _)) by lia.
      assert (Hfix : ∀ m, Nat.iter m (seeked v count interval) (Finished acc)
                          = Finished acc).
      { induction m as [|m IHm]; simpl; [done|]. by rewrite IHm. }
      rewrite Hfix. simpl. by rewrite app_nil_r.
Qed.

Lemma flat_map_map {A B C} (f : A → B) (g : B → list C) (l : list A) :
  flat_map g (map f l) = flat_map (λ x, g (f x)) l.
Proof. induction l as [|x l IH]; simpl; [done|]. by rewrite IH. Qed.

Lemma extractFrames_frames cfg v :
  created_context v = true →
  ∃ ex, extractFrames cfg v = inr ex ∧
        frames ex = map (frame_at v)
                        (sample_times (duration v) (the_extractFramesCount cfg)) ∧
        ops ex = flat_map (λ t, [Seek t; Capture t])
                          (sample_times (duration v) (the_extractFramesCount cfg)).
Proof.
  intros Hctx. unfold extractFrames. rewrite Hctx. eexists. split; [done|].
  rewrite extract_loop_frames, extract_loop_ops. simpl.
  unfold sample_times. by rewrite map_map, flat_map_map.
Qed.

Lemma accepted_inv cfg f v :
  accepted cfg f v = true →
  validateFile cfg f = None ∧ loads v = true ∧
  Double.gtb (duration v) (the_maxDurationSeconds cfg) = false.
Proof.
  unfold accepted. intros H.
  apply andb_true_iff in H as [H Hd]. apply andb_true_iff in H as [Hv Hl].
  apply bool_decide_eq_true in Hv. apply negb_true_iff in Hd. done.
Qed.

(** [processFile] on an accepted video whose canvases work. *)
Lemma processFile_accepted cfg f v h :
  accepted cfg f v = true →
  canvas_context v = true → created_context v = true →
  let times := sample_times (duration v) (the_extractFramesCount cfg) in
  let shots := map (frame_at v) times in
  processFile cfg f v h
  = mkOutcome None [] (Some (frame_at v (seekTime v))) shots
              ([Seek (seekTime v); Capture (seekTime v)]
               ++ flat_map (λ t, [Seek t; Capture t]) times)
              (frameExtractionProgress (processFile cfg f v h))
              (if (0 <? length shots)%nat then
                 check (hook_options cfg)
                       (Request (frame_request cfg f v shots)) h
               else h).
Proof.
  intros Hacc Hc1 Hc2 times shots.
  destruct (accepted_inv _ _ _ Hacc) as (Hv & Hl & Hd).
  destruct (extractFrames_frames cfg v Hc2) as (ex & Hex & Hfr & Hops).
  unfold processFile, generateThumbnail.
  rewrite Hv, Hl, Hd, Hc1, Hex. simpl. by rewrite Hfr, Hops.
Qed.

Lemma processFile_too_long cfg f v h :
  Double.gtb (duration v) (the_maxDurationSeconds cfg) = true →
  video_ops (processFile cfg f v h) = [] ∧
  extracted (processFile cfg f v h) = [] ∧
  thumbnail (processFile cfg f v h) = None ∧
  hook (processFile cfg f v h) = h ∧
  is_Some (uploadError (processFile cfg f v h)).
Proof.
  intros Hlong. unfold processFile.
  destruct (validateFile cfg f); [by repeat split|].
  destruct (loads v); simpl; [|by repeat split].
  rewrite Hlong. by repeat split.
Qed.

(** C6. For an accepted video of duration [d], a finite number, and a
    frame count [n], after the thumbnail the sampler seeks to
    [i * (d / n)] for [i = 0, ..., n-1] in this order, the product and the
    quotient being those of double-precision arithmetic, as the code
    computes them.  Each seek is followed by the capture of its frame
    (made in [onseeked], when the seek has completed) before the next seek
    is issued, and the [n] captured frames are the result.  For [d = 60]
    and [n = 5] the times are exactly 0, 12, 24, 36 and 48.  A video whose
    duration exceeds the maximum is rejected before any seek. *)
Theorem frames_sampled_at_intervals
    (cfg : Settings) (f : File) (v : Video) (h : UseModeration.state) :
  accepted cfg f v = true →
  Double.is_finite (duration v) = true →
  canvas_context v = true → created_context v = true →
  let out := processFile cfg f v h in
  let d := duration v in
  let n := the_extractFramesCount cfg in
  video_ops out
  = [Seek (seekTime v); Capture (seekTime v)]
    ++ flat_map (λ t, [Seek t; Capture t]) (sample_times d n) ∧
  extracted out = map (frame_at v) (sample_times d n) ∧
  sample_times d n
  = map (λ i, Double.mul (Double.of_nat i) (Double.div d (Double.of_nat n)))
        (seq 0 n) ∧
  length (extracted out) = n ∧
  uploadError out = None ∧
  extractFrames cfg v = inr (taken (sampler_after v n n)) ∧
  (∀ k, ops (taken (sampler_after v n k))
        = flat_map (λ t, [Seek t; Capture t]) (firstn k (sample_times d n))
          ++ (if (k <? n)%nat
              then [Seek (Double.mul (Double.of_nat k)
                                     (Double.div d (Double.of_nat n)))]
              else [])) ∧
  (d = Double.of_Z 60 → n = 5%nat →
   sample_times d n = map Double.of_Z [0; 12; 24; 36; 48]) ∧
  (∀ (f' : File) (v' : Video),
      Double.gtb (duration v') (the_maxDurationSeconds cfg) = true →
      video_ops (processFile cfg f' v' h) = [] ∧
      extracted (processFile cfg f' v' h) = [] ∧
      hook (processFile cfg f' v' h) = h ∧
      is_Some (uploadError (processFile cfg f' v' h))).
Proof.
  intros Hacc _ Hc1 Hc2 out d n. subst out.
  rewrite processFile_accepted by done. simpl.
  split; [done|]. split; [done|]. split; [done|]. split.
  { unfold sample_times. by rewrite !length_map, length_seq. }
  split; [done|]. split.
  { unfold extractFrames, sampler_after. rewrite Hc2.
    by rewrite sampler_finishes. }
  split.
  { intros k. unfold sampler_after. rewrite sampler_ops. simpl.
    unfold sample_times. rewrite firstn_map, flat_map_map.
    rewrite Nat.sub_0_r. by rewrite take_seq. }
  split.
  - intros Hd Hn. rewrite Hd, Hn. reflexivity.
  - intros f' v' Hlong.
    destruct (processFile_too_long cfg f' v' h Hlong) as (H1 & H2 & _ & H3 & H4).
    done.
Qed.

(** A 60 s clip sampled five times, and 22 times: the twelfth of the 22
    seeks goes to [11 * (60 / 22)], which in double precision is
    29.999999999999996, so the frame captured is one of second 29.  A clip
    of 301 s is not sampled. *)
Lemma frames_sampled_at_intervals_witness :
  let cfg := with_frame_count 5 (with_defaults (required_only "balanced")) in
  let out := processFile cfg sample_file (sample_video 60) (init true) in
  let out22 := processFile (with_frame_count 22 cfg) sample_file
                           (sample_video 60) (init true) in
  sample_times (Double.of_Z 60) 5 = map Double.of_Z [0; 12; 24; 36; 48] ∧
  extracted out = [[0]; [12]; [24]; [36]; [48]]%N ∧
  nth_error (sample_times (Double.of_Z 60) 22) 11
  = Some (SpecFloat.S754_finite false 8444249301319679 (-48)) ∧
  nth_error (extracted out22) 11 = Some [29%N] ∧
  video_ops (processFile cfg sample_file (sample_video 301) (init true)) = [].
Proof.
  intros cfg out out22.
  destruct (frames_sampled_at_intervals cfg sample_file (sample_video 60)
              (init true)) as (_ & Hex & _ & _ & _ & _ & _ & H60 & Hlong);
    [reflexivity..|].
  destruct (frames_sampled_at_intervals (with_frame_count 22 cfg) sample_file
              (sample_video 60) (init true)) as (_ & Hex22 & _);
    [reflexivity..|].
  split; [by apply H60|]. split; [subst out; rewrite Hex; reflexivity|].
  split; [reflexivity|].
  split; [subst out22; rewrite Hex22; reflexivity|].
  by apply (Hlong sample_file (sample_video 301)).
Defined.




(** C8 (as the code behaves). The comment in [generateThumbnail] says
    ["Seek to 10% of video duration"], but the seek time is
    [Math.min(1, video.duration * 0.1)].  For a 60 s video, which the
    default settings accept, the tenth of the duration is 6 s, and the
    thumbnail is the frame at 1 s; likewise at 1 s for 30 s and for 300 s.
    Only up to 10 s is the seek at the tenth (0.5 s for 5 s). *)
Theorem thumbnail_of_long_video_not_at_tenth :
  let cfg := with_defaults (required_only "balanced") in
  let v := sample_video 60 in
  let out := processFile cfg sample_file v (init true) in
  accepted cfg sample_file v = true ∧
  Double.mul (duration v) Double.tenth = Double.of_Z 6 ∧
  seekTime v = Double.of_Z 1 ∧
  seekTime v ≠ Double.mul (duration v) Double.tenth ∧
  firstn 2 (video_ops out) = [Seek (Double.of_Z 1); Capture (Double.of_Z 1)] ∧
  thumbnail out = Some (frame_at v (Double.of_Z 1)) ∧
  thumbnail out = Some [1%N] ∧
  frame_at v (Double.mul (duration v) Double.tenth) = [6%N] ∧
  seekTime (sample_video 30) = Double.of_Z 1 ∧
  seekTime (sample_video 300) = Double.of_Z 1 ∧
  seekTime (sample_video 5) = Double.div (Double.of_Z 1) (Double.of_Z 2).
Proof. vm_compute. repeat split; try reflexivity. discriminate. Qed.




End VideoUploadFacts.

(** ** Rate limiter: bounds, isolation, sweeps *)

Module RateLimiterRunsFacts.
Import RateLimiter RateLimiterFacts RateLimiterRuns.

(** No stored list grows beyond the cap. *)
Lemma stored_bounded_step g rl e :
  Z.of_nat (length (timestamps_of rl g)) ≤ Z.max 0 (maxRequests rl) →
  Z.of_nat (length (timestamps_of (step rl e) g))
  ≤ Z.max 0 (maxRequests (step rl e)).
Proof.
  intros Hb. rewrite maxRequests_step.
  destruct e as [h t|t]; cbn [step].
  - destruct (decide (h = g)) as [->|Hne].
    + destruct (admitted t g rl) eqn:Hadm.
      * rewrite isLimited_admitted by done. apply admitted_iff in Hadm.
        rewrite length_app. simpl. lia.
      * by rewrite isLimited_rejected.
    + by rewrite isLimited_other.
  - rewrite cleanup_timestamps. unfold recent.
    pose proof (length_filter (λ ts, t - ts < windowMs rl) (timestamps_of rl g)).
    lia.
Qed.

Lemma stored_bounded_run g evs : ∀ rl,
  Z.of_nat (length (timestamps_of rl g)) ≤ Z.max 0 (maxRequests rl) →
  Z.of_nat (length (timestamps_of (run evs rl) g))
  ≤ Z.max 0 (maxRequests rl).
Proof.
  induction evs as [|e evs IH]; intros rl Hb; [done|].
  change (run (e :: evs) rl) with (run evs (step rl e)).
  rewrite <- (maxRequests_step rl e). apply IH. by apply stored_bounded_step.
Qed.

Lemma timestamps_of_new cap window g : timestamps_of (new cap window) g = [].
Proof. unfold timestamps_of, new. simpl. by rewrite lookup_empty. Qed.

(** X1. On a limiter built by the constructor, whatever calls and sweeps
    happen, no guild ever has more than [maxRequests] timestamps stored;
    and among events that all lie within one window, at most
    [maxRequests] calls of a guild are admitted. *)
Theorem limiter_admits_at_most_cap
    (cap window : Z) (evs : list event) (g : string) (now : Z) :
  Forall (λ e, time_of e ≤ now ∧ now - time_of e < window) evs →
  Z.of_nat (admits g evs (new cap window)) ≤ Z.max 0 cap ∧
  (∀ (evs' : list event) (h : string),
      Z.of_nat (length (timestamps_of (run evs' (new cap window)) h))
      ≤ Z.max 0 cap).
Proof.
  intros Hall.
  assert (Hmem : ∀ evs' h,
             Z.of_nat (length (timestamps_of (run evs' (new cap window)) h))
             ≤ Z.max 0 cap).
  { intros evs' h.
    apply (stored_bounded_run h evs' (new cap window)).
    rewrite timestamps_of_new. simpl. lia. }
  split; [|done].
  pose proof (recent_count_run now g evs (new cap window) Hall) as Hcount.
  cbn [windowMs new] in Hcount.
  pose proof (length_filter (λ ts, now - ts < window)
                (timestamps_of (run evs (new cap window)) g)) as Hle.
  unfold recent in Hcount. specialize (Hmem evs g).
  rewrite timestamps_of_new, filter_nil in Hcount. simpl in Hcount. lia.
Qed.

(** Five calls in one second against a cap of three. *)
Lemma limiter_admits_at_most_cap_witness :
  let evs := [Call "g" 0; Call "g" 100; Call "h" 150; Call "g" 200;
              Call "g" 300; Sweep 400; Call "g" 500] in
  admits "g" evs (new 3 60000) = 3%nat ∧
  (Z.of_nat (admits "g" evs (new 3 60000)) ≤ 3).
Proof.
  intros evs. split; [reflexivity|].
  destruct (limiter_admits_at_most_cap 3 60000 evs "g" 500) as [H _].
  - repeat constructor; simpl; lia.
  - exact H.
Defined.

Lemma admitted_agree g now rl1 rl2 :
  agree g rl1 rl2 → admitted now g rl1 = admitted now g rl2.
Proof.
  intros (Hts & Hw & Hm). unfold admitted, isLimited. rewrite Hts, Hw, Hm.
  by case_bool_decide.
Qed.

Lemma agree_step g e rl1 rl2 :
  agree g rl1 rl2 → agree g (step rl1 e) (step rl2 e).
Proof.
  intros Hag. pose proof Hag as (Hts & Hw & Hm).
  split; [|by rewrite !windowMs_step, !maxRequests_step].
  destruct e as [h t|t]; cbn [step].
  - destruct (decide (h = g)) as [->|Hne].
    + pose proof (admitted_agree g t rl1 rl2 Hag) as Heq.
      destruct (admitted t g rl1) eqn:H1.
      * rewrite !isLimited_admitted by congruence. by rewrite Hts, Hw.
      * by rewrite !isLimited_rejected by congruence.
    + by rewrite !isLimited_other.
  - by rewrite !cleanup_timestamps, Hts, Hw.
Qed.

Lemma agree_skip g h now rl1 rl2 :
  h ≠ g → agree g rl1 rl2 → agree g (step rl1 (Call h now)) rl2.
Proof.
  intros Hne (Hts & Hw & Hm).
  split; [|by rewrite windowMs_step, maxRequests_step].
  cbn [step]. by rewrite isLimited_other.
Qed.

Lemma agree_run g evs : ∀ rl1 rl2,
  agree g rl1 rl2 →
  agree g (run evs rl1) (run (filter (λ e, concerns g e = true) evs) rl2).
Proof.
  induction evs as [|e evs IH]; intros rl1 rl2 Hag; [done|].
  change (run (e :: evs) rl1) with (run evs (step rl1 e)).
  rewrite filter_cons. destruct e as [h t|t]; cbn [concerns].
  - case_bool_decide as Hh.
    + rewrite decide_True by done.
      change (run (Call h t :: ?l) rl2) with (run l (step rl2 (Call h t))).
      apply IH. by apply agree_step.
    + rewrite decide_False by done. apply IH. by apply agree_skip.
  - rewrite decide_True by done.
    change (run (Sweep t :: ?l) rl2) with (run l (step rl2 (Sweep t))).
    apply IH. by apply agree_step.
Qed.

(** X2. Guilds are isolated: what the limiter holds for a guild, and so
    the answer it gives that guild next, is the same as if the calls of
    all other guilds had never happened. *)
Theorem limiter_guilds_are_isolated
    (rl : t) (evs : list event) (g : string) (now : Z) :
  let own := filter (λ e, concerns g e = true) evs in
  timestamps_of (run evs rl) g = timestamps_of (run own rl) g ∧
  fst (isLimited now g (run evs rl)) = fst (isLimited now g (run own rl)).
Proof.
  intros own. subst own.
  pose proof (agree_run g evs rl rl (conj eq_refl (conj eq_refl eq_refl))) as Hag.
  split; [apply Hag|].
  pose proof (admitted_agree g now _ _ Hag) as Hadm.
  unfold admitted in Hadm.
  destruct (fst (isLimited now g (run evs rl))),
    (fst (isLimited now g (run (filter (λ e, concerns g e = true) evs) rl)));
    done.
Qed.

Lemma same_recent_later T t rl1 rl2 :
  T ≤ t → same_recent T rl1 rl2 → same_recent t rl1 rl2.
Proof.
  intros Hle (Hw & Hm & Hts). split; [done|]. split; [done|]. intros g.
  rewrite <- (recent_recent _ T t (timestamps_of rl1 g)) by done.
  rewrite <- (recent_recent _ T t (timestamps_of rl2 g)) by done.
  by rewrite Hts.
Qed.

Lemma isLimited_fst now g rl :
  fst (isLimited now g rl)
  = bool_decide (maxRequests rl
                 ≤ Z.of_nat (length (recent (windowMs rl) now (timestamps_of rl g)))).
Proof. unfold isLimited. by case_bool_decide. Qed.

Lemma same_recent_call t g rl1 rl2 :
  same_recent t rl1 rl2 →
  fst (isLimited t g rl1) = fst (isLimited t g rl2) ∧
  same_recent t (step rl1 (Call g t)) (step rl2 (Call g t)).
Proof.
  intros Hsame. pose proof Hsame as (Hw & Hm & Hts).
  assert (Hfst : fst (isLimited t g rl1) = fst (isLimited t g rl2)).
  { rewrite !isLimited_fst. by rewrite <- Hw, <- Hm, Hts. }
  split; [done|]. split; [by rewrite !windowMs_step|].
  split; [by rewrite !maxRequests_step|]. intros h.
  rewrite windowMs_step. cbn [step].
  destruct (decide (g = h)) as [->|Hne].
  - destruct (admitted t h rl1) eqn:H1.
    + assert (H2 : admitted t h rl2 = true).
      { unfold admitted in *. by rewrite <- Hfst. }
      rewrite !isLimited_admitted by done. by rewrite <- Hw, Hts.
    + assert (H2 : admitted t h rl2 = false).
      { unfold admitted in *. by rewrite <- Hfst. }
      rewrite !isLimited_rejected by done. apply Hts.
  - rewrite !isLimited_other by done. apply Hts.
Qed.

Lemma same_recent_sweep t rl1 rl2 :
  same_recent t rl1 rl2 → same_recent t (cleanup t rl1) rl2.
Proof.
  intros (Hw & Hm & Hts). split; [done|]. split; [done|]. intros g.
  rewrite cleanup_timestamps. cbn [windowMs cleanup].
  rewrite recent_recent by lia. apply Hts.
Qed.

Lemma answers_without_sweeps evs : ∀ T rl1 rl2,
  same_recent T rl1 rl2 → monotone T evs →
  answers evs rl1 = answers (filter (λ e, is_call e = true) evs) rl2.
Proof.
  induction evs as [|e evs IH]; intros T rl1 rl2 Hsame Hmono; [done|].
  destruct Hmono as [Hle Hmono]. rewrite filter_cons.
  apply (same_recent_later T (time_of e)) in Hsame; [|done].
  destruct e as [g t|t]; cbn [is_call time_of] in *.
  - rewrite decide_True by done. cbn [answers].
    destruct (same_recent_call t g rl1 rl2 Hsame) as [Hfst Hnext].
    rewrite Hfst. f_equal. by apply (IH t).
  - rewrite decide_False by done. cbn [answers step].
    apply (IH t); [|done]. by apply same_recent_sweep.
Qed.

(** X3. While the clock does not run backwards, the periodic sweep never
    changes a decision: every call gets the answer it would get if no
    sweep had ever run. *)
Theorem sweep_never_changes_an_answer (rl : t) (evs : list event) (from : Z) :
  monotone from evs →
  answers evs rl = answers (filter (λ e, is_call e = true) evs) rl.
Proof.
  intros Hmono. apply (answers_without_sweeps evs from); [|done].
  by repeat split.
Qed.

Lemma sweep_never_changes_an_answer_witness :
  answers [Call "g" 0; Call "g" 10; Sweep 20; Call "g" 30;
           Sweep 60005; Call "g" 60006] (new 2 60000)
  = [false; false; true; false].
Proof.
  rewrite (sweep_never_changes_an_answer (new 2 60000) _ 0).
  - reflexivity.
  - simpl. lia.
Defined.

End RateLimiterRunsFacts.

(** ** Config store: presets, coherence, the setup flow *)

Module ConfigStoreOpsFacts.
Import ConfigStore ConfigStoreFacts ConfigStoreOps.

(** X4. [getPolicyId] maps the three presets to their policies, and every
    other preset to the balanced policy, unless the preset is a name that
    object literals inherit (such as ["constructor"]), in which case the
    inherited member comes back instead of a policy identifier. *)
Theorem getPolicyId_falls_back_to_balanced (preset : string) :
  getPolicyId "strict" = PolicyId "discord-strict" ∧
  getPolicyId "balanced" = PolicyId "discord-balanced" ∧
  getPolicyId "permissive" = PolicyId "discord-permissive" ∧
  (preset ∉ ["strict"; "balanced"; "permissive"]%string →
   preset ∉ object_prototype_names →
   getPolicyId preset = PolicyId "discord-balanced") ∧
  (preset ∈ object_prototype_names →
   getPolicyId preset = InheritedMember preset) ∧
  (preset ∉ object_prototype_names →
   getPolicyId preset ∈ [PolicyId "discord-strict"; PolicyId "discord-balanced";
                         PolicyId "discord-permissive"]).
Proof.
  split; [done|]. split; [done|]. split; [done|].
  assert (Hown : own_preset preset = None
                 ∨ preset ∈ ["strict"; "balanced"; "permissive"]%string
                   ∧ ∃ id, own_preset preset = Some id
                           ∧ PolicyId id ∈ [PolicyId "discord-strict";
                                            PolicyId "discord-balanced";
                                            PolicyId "discord-permissive"]).
  { unfold own_preset, POLICY_PRESETS. cbn [List.find fst snd].
    destruct (String.eqb_spec "strict" preset) as [<-|?].
    { right. split; [set_solver|]. eexists. split; [done|]. set_solver. }
    destruct (String.eqb_spec "balanced" preset) as [<-|?].
    { right. split; [set_solver|]. eexists. split; [done|]. set_solver. }
    destruct (String.eqb_spec "permissive" preset) as [<-|?].
    { right. split; [set_solver|]. eexists. split; [done|]. set_solver. }
    by left. }
  split; [|split].
  - intros Hnot Hproto. unfold getPolicyId.
    destruct Hown as [->|[Hin _]]; [|done].
    by rewrite bool_decide_eq_false_2.
  - intros Hproto. unfold getPolicyId.
    destruct Hown as [->|[Hin _]].
    + by rewrite bool_decide_eq_true_2.
    + exfalso. revert Hproto. unfold object_prototype_names.
      apply list_elem_of_In in Hin. simpl in Hin.
      destruct Hin as [<-|[<-|[<-|[]]]]; intros H;
        apply list_elem_of_In in H; simpl in H;
        repeat (destruct H as [H|H]; [discriminate H|]); done.
  - intros Hproto. unfold getPolicyId.
    destruct Hown as [->|(_ & id & -> & Hid)]; [|done].
    rewrite bool_decide_eq_false_2 by done. set_solver.
Qed.

Lemma getPolicyId_falls_back_to_balanced_witness :
  getPolicyId "custom" = PolicyId "discord-balanced" ∧
  getPolicyId "toString" = InheritedMember "toString".
Proof.
  split.
  - destruct (getPolicyId_falls_back_to_balanced "custom")
      as (_ & _ & _ & H & _).
    apply H; intros Hin; apply list_elem_of_In in Hin; simpl in Hin;
      intuition discriminate.
  - destruct (getPolicyId_falls_back_to_balanced "toString")
      as (_ & _ & _ & _ & H & _).
    apply H. apply list_elem_of_In. simpl. tauto.
Defined.

(** *** Coherence of the cache *)

Lemma coherent_invalidate g t c s :
  coherent (mkWorld t c s) →
  ∀ t', (∀ h, h ≠ g → t' !! h = t !! h) →
  coherent (invalidate g (mkWorld t' c s)).
Proof.
  intros Hco t' Ht' h e. unfold invalidate. simpl.
  destruct (decide (h = g)) as [->|Hne].
  - by rewrite lookup_delete_eq.
  - rewrite lookup_delete_ne by done. intros He.
    rewrite Ht' by done. by apply (Hco h e).
Qed.

Lemma coherent_get now1 now2 g w :
  coherent w → coherent (snd (getServerConfig now1 now2 g w)).
Proof.
  intros Hco. destruct (fresh now1 (configCache w !! g)) eqn:Hf.
  - unfold getServerConfig, getServerConfig_begin. rewrite Hf.
    by destruct (configCache w !! g).
  - rewrite getServerConfig_miss by done. simpl. intros h e. simpl.
    destruct (decide (g = h)) as [->|Hne].
    + rewrite lookup_insert_eq. by intros [= <-].
    + rewrite lookup_insert_ne by done. apply Hco.
Qed.

Lemma coherent_apply_op w o : coherent w → coherent (apply_op w o).
Proof.
  intros Hco. destruct w as [t c s].
  destruct o as [now1 now2 g|id now g name preset log|now g u|g]; cbn [apply_op].
  - by apply coherent_get.
  - unfold createServerConfig. cbn [table configCache selects].
    destruct (t !! g) eqn:Hg; cbn [snd]; [done|].
    apply (coherent_invalidate g t); [done|].
    intros h Hne. by rewrite lookup_insert_ne.
  - unfold updateServerConfig. cbn [table configCache selects snd].
    apply (coherent_invalidate g t); [done|]. intros h Hne.
    destruct (t !! g); simpl; [by rewrite lookup_insert_ne|done].
  - unfold deleteServerConfig. cbn [table configCache selects snd].
    apply (coherent_invalidate g t); [done|]. intros h Hne.
    by rewrite lookup_delete_ne.
Qed.

Lemma coherent_perform ops : ∀ w, coherent w → coherent (perform ops w).
Proof.
  induction ops as [|o ops IH]; intros w Hco; [done|].
  simpl. apply IH. by apply coherent_apply_op.
Qed.

Lemma getServerConfig_coherent now1 now2 g w :
  coherent w → fst (getServerConfig now1 now2 g w) = table w !! g.
Proof.
  intros Hco. destruct (fresh now1 (configCache w !! g)) eqn:Hf.
  - unfold getServerConfig, getServerConfig_begin. rewrite Hf.
    destruct (configCache w !! g) as [e|] eqn:He; [|done].
    simpl. by apply Hco.
  - by rewrite getServerConfig_miss.
Qed.

(** X5. Starting with an empty cache, after any series of
    [getServerConfig], [createServerConfig], [updateServerConfig] and
    [deleteServerConfig] calls that each run to completion,
    [getServerConfig] returns the row the table holds at that moment (or
    [null] when there is none): a cached value is never stale. *)
Theorem reads_are_never_stale
    (rows : gmap string DiscordServer) (ops : list op)
    (g : string) (now1 now2 : Z) :
  let w := perform ops (mkWorld rows ∅ []) in
  fst (getServerConfig now1 now2 g w) = table w !! g.
Proof.
  intros w. apply getServerConfig_coherent. apply coherent_perform.
  intros h e. simpl. by rewrite lookup_empty.
Qed.

(** X6. A [getServerConfig] that is suspended at its [await] while an
    [updateServerConfig] runs caches the row its query had read: although
    the update invalidated the cache, the following calls within the TTL
    return the row as it was before the update. *)
Theorem overlapping_read_recaches_old_row
    (w : world) (g : string) (old : DiscordServer) (u : updates)
    (now1 now2 now3 now4 now5 : Z) :
  table w !! g = Some old →
  fresh now1 (configCache w !! g) = false →
  now4 - now3 < CACHE_TTL →
  let (started, w1) := getServerConfig_begin now1 g w in
  let answer := select_row g w1 in
  let (updated, w2) := updateServerConfig now2 g u w1 in
  let (_, w3) := getServerConfig_resume now3 g answer w2 in
  started = Querying ∧
  updated = Some (apply_updates now2 u old) ∧
  table w3 !! g = Some (apply_updates now2 u old) ∧
  fst (getServerConfig now4 now5 g w3) = Some old ∧
  selects (snd (getServerConfig now4 now5 g w3)) = selects w3.
Proof.
  intros Hold Hmiss Httl. unfold getServerConfig_begin. rewrite Hmiss.
  unfold updateServerConfig, select_row, getServerConfig_resume. simpl.
  rewrite Hold. simpl. split; [done|]. split; [done|].
  split; [by rewrite lookup_insert_eq|].
  rewrite (getServerConfig_hit now4 now5 g _ (mkEntry (Some old) now3));
    [done|apply lookup_insert_eq|done].
Qed.

(** A guild is disabled while a read of its config is under way; the
    read still reports it enabled afterwards. *)
Lemma overlapping_read_recaches_old_row_witness :
  let old := mkServer "1" "g" (Some "Guild") "strict" (Some "log") true 0 0 in
  let off := mkUpdates None None (Some false) None in
  let w := mkWorld {["g" := old]} ∅ [] in
  let (started, w1) := getServerConfig_begin 100 "g" w in
  let answer := select_row "g" w1 in
  let (updated, w2) := updateServerConfig 110 "g" off w1 in
  let (_, w3) := getServerConfig_resume 120 "g" answer w2 in
  started = Querying ∧
  updated = Some (apply_updates 110 off old) ∧
  table w3 !! "g" = Some (apply_updates 110 off old) ∧
  fst (getServerConfig 130 140 "g" w3) = Some old ∧
  selects (snd (getServerConfig 130 140 "g" w3)) = selects w3.
Proof.
  intros old off w.
  apply (overlapping_read_recaches_old_row w "g" old off 100 110 120 130 140);
    reflexivity.
Defined.

(** X7. For values that fit the columns of the table,
    [createServerConfig] fails on a guild that already has a row and then
    changes nothing, the cache included.  On a new guild it stores an
    enabled row with the given name, preset and log channel, leaves the
    rows of other guilds alone, and the next [getServerConfig] returns the
    new row, whatever had been cached for the guild. *)
Theorem create_is_read_back
    (w : world) (id : string) (now : Z)
    (g name preset log : string) (now1 now2 : Z) :
  storable g name preset log = true →
  match table w !! g with
  | Some _ =>
      createServerConfig id now g name preset log w = (inl UniqueViolation, w)
  | None =>
      let row := mkServer id g (Some name) preset (Some log) true now now in
      let (r, w') := createServerConfig id now g name preset log w in
      r = inr row ∧
      fst (getServerConfig now1 now2 g w') = Some row ∧
      (∀ h, h ≠ g → table w' !! h = table w !! h) ∧
      fetches g (snd (getServerConfig now1 now2 g w')) = S (fetches g w)
  end.
Proof.
  intros _. unfold createServerConfig. destruct (table w !! g) eqn:Hg; [done|].
  simpl. split; [done|].
  rewrite getServerConfig_miss by apply fresh_invalidate. simpl.
  split; [by rewrite lookup_insert_eq|]. split.
  - intros h Hne. by rewrite lookup_insert_ne.
  - rewrite fetches_snoc, decide_True by done. unfold fetches. simpl. lia.
Qed.

(** A guild is created while a [null] is cached for it, and created
    again. *)
Lemma create_is_read_back_witness :
  let w := mkWorld ∅ {["g" := mkEntry None 0]} [] in
  let row := mkServer "1" "g" (Some "Guild") "strict" (Some "log") true 30 30 in
  let w' := snd (createServerConfig "1" 30 "g" "Guild" "strict" "log" w) in
  fst (getServerConfig 10 20 "g" w) = None ∧
  fst (getServerConfig 40 50 "g" w') = Some row ∧
  createServerConfig "2" 60 "g" "Guild" "balanced" "log" w'
  = (inl UniqueViolation, w').
Proof.
  intros w row w'. split; [reflexivity|].
  pose proof (create_is_read_back w "1" 30 "g" "Guild" "strict" "log" 40 50
                eq_refl) as H1.
  pose proof (create_is_read_back w' "2" 60 "g" "Guild" "balanced" "log" 0 0
                eq_refl) as H2.
  change (table w !! "g") with (@None DiscordServer) in H1.
  change (table w' !! "g") with (Some row) in H2.
  cbv zeta in H1.
  destruct (createServerConfig "1" 30 "g" "Guild" "strict" "log" w)
    as [r1 w1] eqn:Hc.
  destruct H1 as (_ & Hget & _). split; [exact Hget|exact H2].
Defined.

(** X8. The setup flow is an upsert.  When a policy selection is waiting
    for the guild and the cache is coherent, [handleChannelSelect] ends
    with the "setup complete" reply, forgets the selection, and leaves the
    guild with an enabled row that carries the selected policy and the
    chosen log channel, which [getServerConfig] returns from then on; the
    rows of other guilds are untouched.  Without a waiting selection it
    answers "session expired" and changes nothing. *)
Theorem setup_stores_the_selection
    (now1 now2 now3 : Z) (id g log : string) (name : option string)
    (setupState : gmap string Selection) (sel : Selection) (w : world) :
  coherent w →
  setupState !! g = Some sel →
  let '(reply, setupState', w') :=
    handleChannelSelect now1 now2 now3 id g log name setupState w in
  reply = SetupComplete (selected_policy sel) log
                        (bool_decide (table w !! g = None)) ∧
  setupState' = delete g setupState ∧
  (∃ row, table w' !! g = Some row ∧
          policyPreset row = selected_policy sel ∧
          logChannelId row = Some log ∧ enabled row = true ∧
          ∀ now4 now5, fst (getServerConfig now4 now5 g w') = Some row) ∧
  (∀ h, h ≠ g → table w' !! h = table w !! h) ∧
  handleChannelSelect now1 now2 now3 id g log name (delete g setupState) w
  = (SessionExpired, delete g setupState, w).
Proof.
  intros Hco Hsel. unfold handleChannelSelect at 1. rewrite Hsel.
  pose proof (getServerConfig_coherent now1 now2 g w Hco) as Hget.
  pose proof (coherent_get now1 now2 g w Hco) as Hco1.
  assert (Htab : table (snd (getServerConfig now1 now2 g w)) = table w).
  { unfold getServerConfig, getServerConfig_begin, getServerConfig_resume.
    destruct (fresh now1 (configCache w !! g)); [|done].
    by destruct (configCache w !! g). }
  destruct (getServerConfig now1 now2 g w) as [existing w1].
  simpl in Hget, Hco1, Htab. subst existing.
  assert (Hexp : handleChannelSelect now1 now2 now3 id g log name
                   (delete g setupState) w
                 = (SessionExpired, delete g setupState, w)).
  { unfold handleChannelSelect. by rewrite lookup_delete_eq. }
  destruct (table w !! g) as [old|] eqn:Hold.
  - unfold updateServerConfig. rewrite Htab, Hold. simpl.
    split; [done|]. split; [done|]. split; [|split; [|done]].
    + eexists. split; [apply lookup_insert_eq|]. do 3 (split; [done|]).
      intros now4 now5.
      rewrite getServerConfig_miss by (simpl; by rewrite lookup_delete_eq).
      simpl. apply lookup_insert_eq.
    + intros h Hne. by rewrite lookup_insert_ne.
  - unfold createServerConfig. rewrite Htab, Hold. simpl.
    split; [done|]. split; [done|]. split; [|split; [|done]].
    + eexists. split; [apply lookup_insert_eq|]. do 3 (split; [done|]).
      intros now4 now5.
      rewrite getServerConfig_miss by (simpl; by rewrite lookup_delete_eq).
      simpl. apply lookup_insert_eq.
    + intros h Hne. by rewrite lookup_insert_ne.
Qed.

(** A first setup of a guild nobody configured before. *)
Lemma setup_stores_the_selection_witness :
  let setupState := handlePolicySelect "g" "strict" "user" ∅ in
  let '(reply, _, w') :=
    handleChannelSelect 10 20 30 "1" "g" "log" (Some "Guild") setupState
                        (mkWorld ∅ ∅ []) in
  reply = SetupComplete "strict" "log" true ∧
  policyPreset <$> fst (getServerConfig 40 50 "g" w') = Some "strict"%string.
Proof.
  pose proof (setup_stores_the_selection 10 20 30 "1" "g" "log" (Some "Guild")
                (handlePolicySelect "g" "strict" "user" ∅)
                (mkSelection "strict" "user") (mkWorld ∅ ∅ [])) as H.
  cbv zeta.
  destruct (handleChannelSelect 10 20 30 "1" "g" "log" (Some "Guild")
              (handlePolicySelect "g" "strict" "user" ∅) (mkWorld ∅ ∅ []))
    as [[reply st'] w'].
  destruct H as (Hreply & _ & (row & _ & Hp & _ & _ & Hget) & _).
  - intros h e. simpl. by rewrite lookup_empty.
  - reflexivity.
  - split; [exact Hreply|]. rewrite Hget. simpl. by rewrite Hp.
Defined.

End ConfigStoreOpsFacts.

(** ** The moderation hook: invariants of its runs *)

Module UseModerationLifeFacts.
Import JsString JsStringFacts UseModeration UseModerationFacts UseModerationLife.

Section Runs.
Variable opts : Options.

Lemma run_snoc evs e s :
  run opts (evs ++ [e]) s = step opts (run opts evs s) e.
Proof. unfold run. by rewrite fold_left_app. Qed.

Lemma find_timer_elem h ts t : find_timer h ts = Some t → t ∈ ts.
Proof.
  unfold find_timer. intros H. apply List.find_some in H as [H _].
  by apply list_elem_of_In.
Qed.

Lemma clearTimeout_elem h ts t : t ∈ clearTimeout h ts → t ∈ ts.
Proof. unfold clearTimeout. intros H. by apply list_elem_of_filter in H as [_ H]. Qed.

Lemma clearTimeout_length h ts :
  (length (clearTimeout h ts) ≤ length ts)%nat.
Proof. apply length_filter. Qed.

Lemma clearTimeout_found h ts t :
  find_timer h ts = Some t →
  (length (clearTimeout (handle t) ts) < length ts)%nat.
Proof.
  intros H. apply find_timer_elem in H. unfold clearTimeout.
  apply (length_filter_lt _ _ t); [done|]. by intros [].
Qed.

(** What the steps other than [check] do to the timers and the ref. *)
Lemma step_timers s e t :
  is_check e = false → t ∈ timers (step opts s e) → t ∈ timers s.
Proof.
  intros He. destruct e as [c|dt|h|rid r|rid err]; [done|..]; cbn [step].
  - by case_bool_decide.
  - destruct (find_timer h (timers s)) as [t'|]; [|done].
    case_bool_decide; [|done]. unfold fire, on_rejected.
    destruct (client s); [simpl; apply clearTimeout_elem|].
    case_bool_decide; simpl; apply clearTimeout_elem.
  - destruct (find_request rid (inflight s)); [|done]. done.
  - destruct (find_request rid (inflight s)); [|done].
    unfold on_rejected. by case_bool_decide.
Qed.

Lemma step_timers_length s e :
  is_check e = false →
  (length (timers (step opts s e)) ≤ length (timers s))%nat.
Proof.
  intros He. destruct e as [c|dt|h|rid r|rid err]; [done|..]; cbn [step].
  - by case_bool_decide.
  - destruct (find_timer h (timers s)) as [t'|]; [|done].
    case_bool_decide; [|done]. unfold fire, on_rejected.
    destruct (client s); [simpl; apply clearTimeout_length|].
    case_bool_decide; simpl; apply clearTimeout_length.
  - destruct (find_request rid (inflight s)); [|done]. done.
  - destruct (find_request rid (inflight s)); [|done].
    unfold on_rejected. by case_bool_decide.
Qed.

Lemma step_timeoutRef s e :
  is_check e = false → timeoutRef (step opts s e) = timeoutRef s.
Proof.
  intros He. destruct e as [c|dt|h|rid r|rid err]; [done|..]; cbn [step].
  - by case_bool_decide.
  - destruct (find_timer h (timers s)) as [t'|]; [|done].
    case_bool_decide; [|done]. unfold fire, on_rejected.
    destruct (client s); [done|]. by case_bool_decide.
  - by destruct (find_request rid (inflight s)).
  - destruct (find_request rid (inflight s)); [|done].
    unfold on_rejected. by case_bool_decide.
Qed.

Lemma timers_owned_step s e : timers_owned s → timers_owned (step opts s e).
Proof.
  intros [Hlen Hown]. destruct (is_check e) eqn:He.
  - destruct e as [c| | | |]; try done. cbn [step]. unfold check.
    destruct (negb (enabled opts) || negb (client s)); [done|].
    assert (Hclear : match timeoutRef s with
                     | Some h => clearTimeout h (timers s)
                     | None => timers s
                     end = []).
    { apply clear_owned. intros t Ht. by apply Hown. }
    rewrite Hclear. destruct (is_empty c) eqn:Hc; split; simpl; try lia.
    + intros t Ht. by apply elem_of_nil in Ht.
    + intros t Ht. apply list_elem_of_singleton in Ht as ->. done.
  - split.
    + pose proof (step_timers_length s e He). lia.
    + intros t Ht. rewrite step_timeoutRef by done.
      apply Hown. by apply (step_timers s e).
Qed.

Lemma timers_owned_run evs : ∀ s, timers_owned s → timers_owned (run opts evs s).
Proof.
  induction evs as [|e evs IH]; intros s Hs; [done|].
  simpl. apply IH. by apply timers_owned_step.
Qed.

Lemma timers_owned_init client : timers_owned (init client).
Proof. split; [simpl; lia|]. intros t Ht. by apply elem_of_nil in Ht. Qed.

(** X9. Whatever the caller and the environment do, at most one debounce
    timer is pending at any time; it is the one [timeoutRef] holds, and
    the content it waits for is not empty. *)
Theorem at_most_one_timer_pending (client : bool) (evs : list event) :
  let s := run opts evs (init client) in
  (length (timers s) ≤ 1)%nat ∧
  ∀ t, t ∈ timers s →
       timeoutRef s = Some (handle t) ∧ is_empty (captured t) = false.
Proof. apply timers_owned_run, timers_owned_init. Qed.

(** Requests and pending timers together never outnumber the calls of
    [check] with content. *)
Lemma budget_step s e :
  (length (remote_calls (step opts s e)) + length (timers (step opts s e))
   ≤ length (remote_calls s) + length (timers s) + (if asks e then 1 else 0))%nat.
Proof.
  destruct e as [c|dt|h|rid r|rid err]; cbn [step asks].
  - unfold check. destruct (negb (enabled opts) || negb (client s)); [lia|].
    assert (Hle : (length (match timeoutRef s with
                           | Some h => clearTimeout h (timers s)
                           | None => timers s
                           end) ≤ length (timers s))%nat).
    { destruct (timeoutRef s); [apply clearTimeout_length|done]. }
    destruct (is_empty c); simpl; rewrite ?length_app; simpl; lia.
  - case_bool_decide; simpl; lia.
  - destruct (find_timer h (timers s)) as [t|] eqn:Hfind; [|lia].
    case_bool_decide; [|lia].
    pose proof (clearTimeout_found h (timers s) t Hfind).
    unfold fire, on_rejected. destruct (client s).
    + simpl. rewrite length_app. simpl. lia.
    + case_bool_decide; simpl; lia.
  - destruct (find_request rid (inflight s)); simpl; lia.
  - destruct (find_request rid (inflight s)); [|lia].
    unfold on_rejected. case_bool_decide; simpl; lia.
Qed.

Lemma budget_run evs : ∀ s,
  (length (remote_calls (run opts evs s)) + length (timers (run opts evs s))
   ≤ length (remote_calls s) + length (timers s) + checks_made evs)%nat.
Proof.
  induction evs as [|e evs IH]; intros s; [simpl; lia|].
  change (run opts (e :: evs) s) with (run opts evs (step opts s e)).
  pose proof (IH (step opts s e)). pose proof (budget_step s e).
  cbn [checks_made]. lia.
Qed.

(** X10. The hook never hands the client more requests than [check] was
    called with content that is not empty, whatever the timing. *)
Theorem requests_never_outnumber_checks (client : bool) (evs : list event) :
  (length (remote_calls (run opts evs (init client))) ≤ checks_made evs)%nat.
Proof. pose proof (budget_run evs (init client)). simpl in *. lia. Qed.

(** Only a timer that fires hands a request to the client, and the
    request is the one built from the content the timer waits for. *)
Lemma step_remote_calls s e :
  remote_calls (step opts s e) = remote_calls s ∨
  ∃ h t, e = Fire h ∧ t ∈ timers s ∧
         remote_calls (step opts s e)
         = remote_calls s ++ [(next_request s, checkRequest opts (captured t))].
Proof.
  destruct e as [c|dt|h|rid r|rid err]; cbn [step].
  - left. apply check_remote_calls.
  - left. by case_bool_decide.
  - destruct (find_timer h (timers s)) as [t|] eqn:Hfind; [|by left].
    case_bool_decide; [|by left]. unfold fire, on_rejected.
    destruct (client s).
    + right. exists h, t. split; [done|]. split; [|done].
      by apply (find_timer_elem h).
    + left. by case_bool_decide.
  - left. by destruct (find_request rid (inflight s)).
  - left. destruct (find_request rid (inflight s)); [|done].
    unfold on_rejected. by case_bool_decide.
Qed.

Lemma check_timers c s t :
  t ∈ timers (check opts c s) →
  t ∈ timers s ∨ captured t = c ∧ is_empty c = false.
Proof.
  unfold check. destruct (negb (enabled opts) || negb (client s)); [by left|].
  assert (Hsub : ∀ t, t ∈ match timeoutRef s with
                          | Some h => clearTimeout h (timers s)
                          | None => timers s
                          end → t ∈ timers s).
  { intros t'. destruct (timeoutRef s); [apply clearTimeout_elem|done]. }
  destruct (is_empty c) eqn:Hc; simpl.
  - intros Ht. left. by apply Hsub.
  - intros Ht. apply elem_of_app in Ht as [Ht|Ht]; [left; by apply Hsub|].
    apply list_elem_of_singleton in Ht as ->. by right.
Qed.

Lemma stems_from_step evs s e :
  stems_from opts evs s → stems_from opts (evs ++ [e]) (step opts s e).
Proof.
  intros [Ht Hr]. split.
  - intros t Hin. destruct (is_check e) eqn:He.
    + destruct e as [c| | | |]; try done. cbn [step] in Hin.
      apply check_timers in Hin as [Hin|[Hc Hne]].
      * destruct (Ht t Hin) as [Hev Hemp]. split; [|done].
        apply in_or_app. by left.
      * split; [|by rewrite Hc]. apply in_or_app. right. rewrite Hc. by left.
    + apply (step_timers s e t He) in Hin.
      destruct (Ht t Hin) as [Hev Hemp]. split; [|done].
      apply in_or_app. by left.
  - intros r Hin.
    destruct (step_remote_calls s e) as [Heq|(h & t & -> & Hpend & Heq)];
      rewrite Heq in Hin.
    + destruct (Hr r Hin) as (c & Hev & Hrest). exists c.
      split; [apply in_or_app; by left|done].
    + apply elem_of_app in Hin as [Hin|Hin].
      * destruct (Hr r Hin) as (c & Hev & Hrest). exists c.
        split; [apply in_or_app; by left|done].
      * apply list_elem_of_singleton in Hin as ->.
        destruct (Ht t Hpend) as [Hev Hemp]. exists (captured t).
        split; [apply in_or_app; by left|done].
Qed.

Lemma stems_from_run client evs : stems_from opts evs (run opts evs (init client)).
Proof.
  induction evs as [|e evs IH] using rev_ind.
  - split; intros x Hx; by apply elem_of_nil in Hx.
  - rewrite run_snoc. by apply stems_from_step.
Qed.

(** X11. Every request the hook hands to the client stems from a [check]
    call: it carries the content of that call, which was not empty, and
    the hook's own [policyId], whatever policy the caller's request object
    named. *)
Theorem requests_stem_from_checks
    (client : bool) (evs : list event) (r : nat * CheckRequest) :
  r ∈ remote_calls (run opts evs (init client)) →
  policyId (snd r) = opt_policyId opts ∧
  ∃ c, In (Check c) evs ∧ is_empty c = false ∧
       snd r = checkRequest opts c ∧ content (snd r) = content_of c.
Proof.
  intros Hin. destruct (stems_from_run client evs) as [_ Hr].
  destruct (Hr r Hin) as (c & Hev & Hemp & Heq).
  split; [rewrite Heq; by destruct c|].
  exists c. do 3 (split; [done|]). rewrite Heq. apply content_checkRequest.
Qed.

Lemma step_client s e : client (step opts s e) = client s.
Proof.
  destruct e as [c|dt|h|rid r|rid err]; cbn [step].
  - unfold check. destruct (negb (enabled opts) || negb (client s)); [done|].
    by destruct (is_empty c).
  - by case_bool_decide.
  - destruct (find_timer h (timers s)); [|done]. case_bool_decide; [|done].
    unfold fire, on_rejected. destruct (client s) eqn:Hc; [done|].
    case_bool_decide; simpl; done.
  - by destruct (find_request rid (inflight s)).
  - destruct (find_request rid (inflight s)); [|done].
    unfold on_rejected. by case_bool_decide.
Qed.

(** X12. A hook that is disabled, or that has no client because the API
    key is empty, is inert: whatever is called and whenever, it sends
    nothing, schedules nothing, calls no callback and keeps reporting the
    initial safe result. *)
Theorem disabled_hook_is_inert (client : bool) (evs : list event) :
  enabled opts = false ∨ client = false →
  let s := run opts evs (init client) in
  result s = safe_result ∧ remote_calls s = [] ∧ timers s = [] ∧
  inflight s = [] ∧ callbacks s = [].
Proof.
  intros Hoff.
  assert (Hinv : ∀ evs s, idle (init client) s → UseModeration.client s = client →
                          idle (init client) (run opts evs s)).
  { clear evs. induction evs as [|e evs IH]; intros s Hs Hc; [done|].
    simpl. apply IH; [|by rewrite step_client].
    destruct (is_check e) eqn:He; [|by apply idle_step].
    destruct e as [c| | | |]; try done. cbn [step]. unfold check.
    destruct Hoff as [->| ->]; [done|]. rewrite Hc.
    by rewrite orb_true_r. }
  destruct (Hinv evs (init client)) as (Ht & Hi & Hr & Hrc & Hcb & _);
    [by repeat split|done|].
  simpl. by rewrite Ht, Hi, Hr, Hrc, Hcb.
Qed.

End Runs.

(** The request sent after an image component's call carries the hook's
    policy, not the one named in the call. *)
Lemma requests_stem_from_checks_witness :
  let opts := mkOptions "balanced" 0 true false false in
  let asked := Request (mkRequest (js "data:image/png;base64,AAAA")
                                  "strict" (Some image) None) in
  let r := (1%nat, mkRequest (js "data:image/png;base64,AAAA") "balanced"
                             (Some image) None) in
  r ∈ remote_calls (run opts [Check asked; Fire 1] (init true)) ∧
  policyId (snd r) = "balanced"%string.
Proof.
  intros opts asked r.
  assert (Hin : r ∈ remote_calls (run opts [Check asked; Fire 1] (init true))).
  { apply list_elem_of_In. left. reflexivity. }
  split; [exact Hin|].
  destruct (requests_stem_from_checks opts true [Check asked; Fire 1] r Hin)
    as [Hp _].
  exact Hp.
Defined.

Lemma disabled_hook_is_inert_witness :
  let opts := mkOptions "balanced" 500 false true true in
  remote_calls (run opts [Check (Text (js "hello")); Tick 500; Fire 1]
                    (init true)) = [].
Proof.
  intros opts.
  destruct (disabled_hook_is_inert opts true
              [Check (Text (js "hello")); Tick 500; Fire 1])
    as (_ & H & _); [by left|exact H].
Defined.

(** A check that runs up to the point where its request is in flight. *)
Lemma check_then_fire opts s c dt :
  enabled opts = true → client s = true →
  (∀ t, t ∈ timers s → timeoutRef s = Some (handle t)) →
  inflight s = [] → is_empty c = false → 0 ≤ dt → debounceMs opts ≤ dt →
  let sent := run opts [Check c; Tick dt; Fire (next_handle s)] s in
  inflight sent = [(next_request s, checkRequest opts c)] ∧
  timers sent = [] ∧ result sent = checking (result s) ∧
  callbacks sent = callbacks s ∧
  remote_calls sent = remote_calls s ++ [(next_request s, checkRequest opts c)].
Proof.
  intros Hen Hcl Hown Hi Hc Hdt Hdue. unfold run. cbn [fold_left].
  set (s1 := step opts s (Check c)).
  assert (Hs1 : timers s1
                = [mkTimer (next_handle s)
                           (clock s + setTimeout_delay (debounceMs opts)) c]
                ∧ client s1 = true ∧ inflight s1 = [] ∧ clock s1 = clock s
                ∧ next_request s1 = next_request s
                ∧ result s1 = checking (result s)
                ∧ callbacks s1 = callbacks s ∧ remote_calls s1 = remote_calls s).
  { subst s1. cbn [step]. unfold check.
    rewrite Hen, Hcl, Hc, (clear_owned s Hown). simpl. by rewrite Hi. }
  destruct Hs1 as (Ht1 & Hc1 & Hi1 & Hk1 & Hn1 & Hr1 & Hcb1 & Hrc1).
  clearbody s1.
  set (s2 := step opts s1 (Tick dt)).
  assert (Hs2 : s2 = advance dt s1).
  { subst s2. cbn [step]. by rewrite bool_decide_eq_true_2. }
  cbn [step]. rewrite Hs2. cbn [advance timers clock].
  rewrite Ht1, find_timer_singleton. cbn [handle]. rewrite Nat.eqb_refl.
  rewrite bool_decide_eq_true_2
    by (cbn [due]; pose proof (setTimeout_delay_bounds (debounceMs opts)); lia).
  unfold fire. simpl. rewrite Hc1. simpl.
  rewrite Ht1, Hi1, Hn1, Hr1, Hcb1, Hrc1.
  pose proof (clearTimeout_singleton
                (mkTimer (next_handle s)
                         (clock s + setTimeout_delay (debounceMs opts)) c))
    as Hclr.
  cbn [handle] in Hclr. rewrite Hclr. by repeat split.
Qed.

(** X13. When the request of a check fails, the verdict the hook reports
    is the one it reported before the check ([safe], [flagged], [action]
    and [categories] are untouched): only [error] is set, to the message
    of the failure or to a default when that is empty, and [onError] is
    called.  A failure whose name is ["AbortError"] is dropped instead:
    no callback, no error, and [isChecking] stays [true]. *)
Theorem failed_check_keeps_previous_verdict
    (opts : Options) (s : state) (c : Content) (dt : Z) (err : JsError) :
  enabled opts = true → client s = true →
  (∀ t, t ∈ timers s → timeoutRef s = Some (handle t)) →
  inflight s = [] → is_empty c = false → 0 ≤ dt → debounceMs opts ≤ dt →
  let s' := run opts [Check c; Tick dt; Fire (next_handle s);
                      Reject (next_request s) err] s in
  inflight s' = [] ∧ timers s' = [] ∧
  safe (result s') = safe (result s) ∧
  flagged (result s') = flagged (result s) ∧
  action (result s') = action (result s) ∧
  categories (result s') = categories (result s) ∧
  (if bool_decide (name err = "AbortError") then
     isChecking (result s') = true ∧ error (result s') = None ∧
     callbacks s' = callbacks s
   else
     isChecking (result s') = false ∧
     error (result s')
     = Some (if bool_decide (message err = "") then "Failed to check content"
             else message err) ∧
     callbacks s' = (if has_onError opts then callbacks s ++ [OnError err]
                     else callbacks s)).
Proof.
  intros Hen Hcl Hown Hi Hc Hdt Hdue.
  change (run opts [Check c; Tick dt; Fire (next_handle s);
                    Reject (next_request s) err] s)
    with (step opts (run opts [Check c; Tick dt; Fire (next_handle s)] s)
               (Reject (next_request s) err)).
  destruct (check_then_fire opts s c dt Hen Hcl Hown Hi Hc Hdt Hdue)
    as (Hin & Ht & Hr & Hcb & _).
  set (sent := run opts [Check c; Tick dt; Fire (next_handle s)] s) in *.
  clearbody sent. cbn [step].
  rewrite Hin, find_request_singleton, Nat.eqb_refl.
  unfold on_rejected, settle. cbn [inflight].
  rewrite Hin, remove_request_singleton.
  case_bool_decide; simpl; rewrite Ht, Hr, Hcb; by repeat split.
Qed.

(** The first check of a hook fails: it goes on reporting [safe: true]. *)
Lemma failed_check_keeps_previous_verdict_witness :
  let opts := mkOptions "balanced" 500 true false true in
  let err := mkError "Error" "" in
  let s' := run opts [Check (Text (js "hello")); Tick 500; Fire 1; Reject 1 err]
                (init true) in
  safe (result s') = true ∧
  error (result s') = Some "Failed to check content"%string ∧
  callbacks s' = [OnError err].
Proof.
  intros opts err s'.
  destruct (failed_check_keeps_previous_verdict opts (init true)
              (Text (js "hello")) 500 err)
    as (_ & _ & Hs & _ & _ & _ & Hrest);
    [reflexivity|reflexivity|by intros t Hin%elem_of_nil|reflexivity
    |reflexivity|lia|simpl; lia|].
  change (bool_decide (name err = "AbortError")) with false in Hrest.
  destruct Hrest as (_ & He & Hcb).
  split; [exact Hs|]. split; [exact He|exact Hcb].
Defined.

(** With no timer pending, none appears and nothing is sent until the
    next [check]. *)
Lemma no_timer_no_request opts evs : ∀ s,
  timers s = [] → forallb (λ e, negb (is_check e)) evs = true →
  timers (run opts evs s) = [] ∧
  remote_calls (run opts evs s) = remote_calls s.
Proof.
  induction evs as [|e evs IH]; intros s Ht Hevs; [done|].
  simpl in Hevs. apply andb_true_iff in Hevs as [He Hevs].
  apply negb_true_iff in He.
  change (run opts (e :: evs) s) with (run opts evs (step opts s e)).
  assert (Ht' : timers (step opts s e) = []).
  { apply elem_of_nil_inv. intros t Hin.
    apply (step_timers opts s e t He) in Hin. rewrite Ht in Hin.
    by apply elem_of_nil in Hin. }
  destruct (IH (step opts s e) Ht' Hevs) as [H1 H2]. split; [done|].
  rewrite H2.
  destruct (step_remote_calls opts s e) as [Heq|(h & t & _ & Hin & _)];
    [done|].
  rewrite Ht in Hin. by apply elem_of_nil in Hin.
Qed.

(** X14. Unmounting stops the pending check: after the cleanup no timer
    is pending, and as long as [check] is not called again no request is
    handed to the client any more.  A request that was already in flight
    is not stopped: its response is still written to [result] and passed
    to [onCheck] after the unmount. *)
Theorem unmount_stops_the_pending_check
    (opts : Options) (client : bool) (evs later : list event) :
  forallb (λ e, negb (is_check e)) later = true →
  let s := unmount (run opts evs (init client)) in
  timers s = [] ∧
  remote_calls (run opts later s) = remote_calls (run opts evs (init client)) ∧
  inflight s = inflight (run opts evs (init client)) ∧
  (∀ rid request response,
      find_request rid (inflight s) = Some request →
      result (step opts s (Resolve rid response)) = of_response response ∧
      callbacks (step opts s (Resolve rid response))
      = (if has_onCheck opts then callbacks s ++ [OnCheck response]
         else callbacks s)).
Proof.
  intros Hlater s.
  destruct (timers_owned_run opts evs (init client) (timers_owned_init client))
    as [_ Hown].
  assert (Ht : timers s = []).
  { subst s. unfold unmount. cbn [timers]. apply clear_owned.
    intros t Hin. by apply Hown. }
  split; [done|].
  destruct (no_timer_no_request opts later s Ht Hlater) as [_ Hrc].
  split; [by rewrite Hrc|]. split; [done|].
  intros rid request response Hfind. cbn [step]. by rewrite Hfind.
Qed.

(** The component unmounts between the debounce and the response. *)
Lemma unmount_stops_the_pending_check_witness :
  let opts := mkOptions "balanced" 500 true true false in
  let response := mkResponse false true block None in
  let before := [Check (Text (js "a")); Tick 500; Fire 1;
                 Check (Text (js "ab"))] in
  let s := unmount (run opts before (init true)) in
  timers s = [] ∧
  length (remote_calls (run opts [Tick 500; Fire 2; Resolve 1 response] s))
  = 1%nat ∧
  callbacks (step opts s (Resolve 1 response)) = [OnCheck response].
Proof.
  intros opts response before s.
  destruct (unmount_stops_the_pending_check opts true before
              [Tick 500; Fire 2; Resolve 1 response])
    as (Ht & Hrc & _ & Hdel); [reflexivity|].
  split; [exact Ht|]. split.
  - subst s. rewrite Hrc. reflexivity.
  - destruct (Hdel 1%nat (mkRequest (js "a") "balanced" (Some text) None)
                response) as [_ Hcb]; [reflexivity|].
    subst s. rewrite Hcb. reflexivity.
Defined.

End UseModerationLifeFacts.

(** ** The textarea with its hook *)

Module TextareaComponentFacts.
Import JsString UseModeration UseModerationFacts Textarea TextareaComponent.

Lemma typed_into_blocked_empty props opts v c :
  blockUnsafe props = true → internalValue (text c) = [] →
  safe (result (hook c)) = false →
  internalValue (text (typed props opts v c)) = [] ∧
  hook (typed props opts v c) = hook c.
Proof.
  intros Hb He Hs. unfold typed, handleChange. rewrite Hb, Hs, He. simpl.
  destruct v as [|x v]; simpl; [done|].
  by rewrite bool_decide_eq_true_2.
Qed.

(** X15. With [blockUnsafe], a textarea that is empty while the result is
    unsafe and the hook is at rest stays that way: every attempt to type or
    paste is rejected, and since the effect calls [check] for non-empty
    text only, no new result can arrive.  Only a new [value] prop from the
    parent ends this state. *)
Theorem emptied_unsafe_textarea_is_stuck
    (props : Props) (opts : Options) (c : component) (evs : list event) :
  blockUnsafe props = true →
  internalValue (text c) = [] →
  safe (result (hook c)) = false →
  timers (hook c) = [] → inflight (hook c) = [] →
  forallb (λ e, negb (is_value e)) evs = true →
  let c' := run props opts evs c in
  internalValue (text c') = [] ∧
  result (hook c') = result (hook c) ∧
  remote_calls (hook c') = remote_calls (hook c).
Proof.
  intros Hb He Hs Ht Hi Hevs.
  assert (Hinv : ∀ evs c',
             forallb (λ e, negb (is_value e)) evs = true →
             internalValue (text c') = [] → idle (hook c) (hook c') →
             internalValue (text (run props opts evs c')) = [] ∧
             idle (hook c) (hook (run props opts evs c'))).
  { clear evs Hevs. induction evs as [|e evs IH]; intros c' Hevs He' Hidle;
      [done|].
    simpl in Hevs. apply andb_true_iff in Hevs as [Hev Hevs].
    change (run props opts (e :: evs) c')
      with (run props opts evs (step props opts c' e)).
    assert (Hs' : safe (result (hook c')) = false).
    { destruct Hidle as (_ & _ & Hr & _). by rewrite Hr. }
    destruct e as [v|v|e|]; [| done | |]; cbn [step].
    - destruct (typed_into_blocked_empty props opts v c' Hb He' Hs')
        as [Hv Hh].
      apply IH; [done|done|by rewrite Hh].
    - destruct (is_check e) eqn:Hc; [by apply IH|].
      apply IH; [done|done|]. simpl. by apply idle_step.
    - unfold check_effect. rewrite He'. by apply IH. }
  destruct (Hinv evs c Hevs He) as (Hv & _ & _ & Hr & Hrc & _);
    [by repeat split|].
  done.
Qed.

(** The text ["bad"] is found unsafe, the user selects all and deletes;
    after that not a single character can be typed. *)
Lemma emptied_unsafe_textarea_is_stuck_witness :
  let props := mkProps true true in
  let opts := default_options "balanced" in
  let unsafe := mkResponse false true block None in
  let c := run props opts
               [Hook (Tick 500); Hook (Fire 1); Hook (Resolve 1 unsafe);
                Typed []]
               (mount opts true (js "bad")) in
  safe (result (hook c)) = false ∧
  internalValue (text (run props opts [Typed (js "h"); Hook (Tick 1000);
                                       Typed (js "hello")] c)) = [].
Proof.
  intros props opts unsafe c. split; [reflexivity|].
  destruct (emptied_unsafe_textarea_is_stuck props opts c
              [Typed (js "h"); Hook (Tick 1000); Typed (js "hello")])
    as (H & _); [reflexivity..|].
  exact H.
Defined.

End TextareaComponentFacts.

(** ** The moderated image upload *)

Module ImageUploadFacts.
Import JsString UseModeration UseModerationFacts UseModerationLife
       UseModerationLifeFacts ImageUpload.

(** X16. The image upload fails open.  A valid image is chosen while the
    hook reports a safe result and is at rest; its moderation request
    fails.  The result is then still safe, the upload button is enabled,
    and a click on it hands the image to [onUpload] as safe, although it
    was never moderated. *)
Theorem image_upload_fails_open
    (cfg : Settings) (f : File) (dataUrl : jsstring) (err : JsError)
    (c : component) :
  validateFile cfg f = None → disabled cfg = false →
  client (hook c) = true → timers (hook c) = [] → inflight (hook c) = [] →
  safe (result (hook c)) = true → name err ≠ "AbortError"%string →
  let c' := run cfg [Choose (Some f) dataUrl; Hook (Tick 0);
                     Hook (Fire (next_handle (hook c)));
                     Hook (Reject (next_request (hook c)) err)] c in
  file c' = Some f ∧
  is_Some (error (result (hook c'))) ∧
  canConfirm cfg (result (hook c')) = true ∧
  uploads (step cfg c' Confirm)
  = (if has_onUpload cfg then
       uploads c ++ [mkUpload f true (flagged (result (hook c)))
                              (action (result (hook c)))]
     else uploads c) ∧
  file (step cfg c' Confirm) = None.
Proof.
  intros Hv Hen Hcl Ht Hi Hs Hname c'.
  set (request := Request (mkRequest dataUrl (policyId cfg) (Some image) None)).
  assert (Hc' : c' = mkComponent (Some f) (Some dataUrl) None
                       (UseModeration.run (hook_options cfg)
                          [Check request; Tick 0; Fire (next_handle (hook c));
                           Reject (next_request (hook c)) err] (hook c))
                       (uploads c) (rejections c)).
  { subst c'. unfold run. cbn [fold_left step handleFileSelect]. by rewrite Hv. }
  destruct (failed_check_keeps_previous_verdict (hook_options cfg) (hook c)
              request 0 err)
    as (_ & _ & Hsafe & Hfl & Hact & _ & Hrest);
    [simpl; by rewrite Hen|done|by rewrite Ht; intros t Hin%elem_of_nil
    |done|done|lia|simpl; lia|].
  rewrite bool_decide_eq_false_2 in Hrest by done.
  destruct Hrest as (Hchk & Herr & _).
  set (h' := UseModeration.run (hook_options cfg)
               [Check request; Tick 0; Fire (next_handle (hook c));
                Reject (next_request (hook c)) err] (hook c)) in *.
  clearbody h'. rewrite Hc'. cbn [file hook].
  split; [done|]. split; [by rewrite Herr|].
  assert (Hcan : canConfirm cfg (result h') = true).
  { unfold canConfirm. by rewrite Hchk, Hsafe, Hs. }
  split; [done|]. cbn [step file hook]. rewrite Hcan.
  unfold handleConfirm. cbn [file hook]. rewrite Hsafe, Hs, Hfl, Hact.
  rewrite andb_false_r. simpl. by destruct (has_onUpload cfg).
Qed.

Lemma image_upload_fails_open_witness :
  let cfg := default_settings "balanced" in
  let f := mkFile "cat.png" 2048 "image/png" in
  let err := mkError "TimeoutError" "The operation timed out" in
  let c' := run cfg [Choose (Some f) (js "data:image/png;base64,AAAA");
                     Hook (Tick 0); Hook (Fire 1); Hook (Reject 1 err);
                     Confirm] (initial true) in
  uploads c' = [mkUpload f true false allow].
Proof.
  intros cfg f err c'.
  destruct (image_upload_fails_open cfg f (js "data:image/png;base64,AAAA")
              err (initial true))
    as (_ & _ & _ & Hup & _); [reflexivity..|discriminate|].
  exact Hup.
Defined.

Lemma safe_uploads_step cfg c e :
  blockUnsafe cfg = true →
  Forall (λ u, as_safe u = true) (uploads c) →
  Forall (λ u, as_safe u = true) (uploads (step cfg c e)).
Proof.
  intros Hb Hall. destruct e as [sel url| | |e]; cbn [step].
  - unfold handleFileSelect. destruct sel as [f|]; [|done].
    by destruct (validateFile cfg f).
  - done.
  - destruct (file c) as [f|] eqn:Hf; [|done].
    destruct (canConfirm cfg (result (hook c))); [|done].
    unfold handleConfirm. rewrite Hf, Hb.
    destruct (safe (result (hook c))) eqn:Hs; simpl; [|done].
    destruct (has_onUpload cfg); [|done].
    apply Forall_app. split; [done|]. by apply Forall_singleton.
  - by destruct (is_check e).
Qed.

(** X17. With [blockUnsafe], whatever files are chosen, whatever the
    moderation answers and whenever the buttons are clicked, [onUpload] is
    only ever called with [safe: true]. *)
Theorem blocked_images_are_never_uploaded
    (cfg : Settings) (client : bool) (evs : list event) :
  blockUnsafe cfg = true →
  Forall (λ u, as_safe u = true) (uploads (run cfg evs (initial client))).
Proof.
  intros Hb.
  assert (Hinv : ∀ evs c, Forall (λ u, as_safe u = true) (uploads c) →
                          Forall (λ u, as_safe u = true) (uploads (run cfg evs c))).
  { clear evs. induction evs as [|e evs IH]; intros c Hc; [done|].
    simpl. apply IH. by apply safe_uploads_step. }
  apply Hinv. constructor.
Qed.

(** A blocked image cannot be confirmed; after it is removed a clean one
    is uploaded. *)
Lemma blocked_images_are_never_uploaded_witness :
  let cfg := default_settings "balanced" in
  let bad := mkFile "bad.png" 2048 "image/png" in
  let good := mkFile "cat.png" 4096 "image/png" in
  let evs := [Choose (Some bad) (js "data:image/png;base64,AAAA");
              Hook (Fire 1); Hook (Resolve 1 (mkResponse false true block None));
              Confirm; Remove;
              Choose (Some good) (js "data:image/png;base64,BBBB");
              Hook (Fire 2); Hook (Resolve 2 (mkResponse true false allow None));
              Confirm] in
  uploads (run cfg evs (initial true)) = [mkUpload good true false allow] ∧
  Forall (λ u, as_safe u = true) (uploads (run cfg evs (initial true))).
Proof.
  intros cfg bad good evs. split; [reflexivity|].
  exact (blocked_images_are_never_uploaded cfg true evs eq_refl).
Defined.

End ImageUploadFacts.

(** ** The moderated video upload: validation and preview *)

Module VideoPreviewFacts.
Import JsString UseModeration VideoUpload VideoUploadFacts VideoPreview.

Local Open Scope Q_scope.

Lemma exceeds_megabytes (size : Z) (limit : Q) :
  exceeds (inject_Z size / inject_Z (1024 * 1024)) limit = false
  ↔ inject_Z size <= limit * 1048576.
Proof.
  unfold exceeds. rewrite negb_false_iff, Qle_bool_iff.
  change (inject_Z (1024 * 1024)) with 1048576.
  split; intros H.
  - apply (Qmult_le_r _ _ (/ 1048576)); [reflexivity|].
    rewrite <- Qmult_assoc, Qmult_inv_r, Qmult_1_r by discriminate. exact H.
  - apply (Qmult_le_r _ _ (/ 1048576)) in H; [|reflexivity].
    rewrite <- Qmult_assoc, Qmult_inv_r, Qmult_1_r in H by discriminate.
    exact H.
Qed.

(** X18. [validateFile] accepts a file exactly when its type is one of the
    accepted formats and its size is at most [maxSizeMB] times 1048576
    bytes (a file of exactly the limit passes); a file of a wrong type is
    reported as such even when it is also too large. *)
Theorem validateFile_accepts_up_to_the_limit (cfg : Settings) (f : File) :
  (validateFile cfg f = None
   ↔ file_type f ∈ the_acceptedFormats cfg
     ∧ inject_Z (file_size f) <= the_maxSizeMB cfg * 1048576) ∧
  (validateFile cfg f = Some InvalidType
   ↔ file_type f ∉ the_acceptedFormats cfg) ∧
  (validateFile (with_defaults (required_only "p"))
                (mkFile "a.mp4" 104857600 "video/mp4") = None) ∧
  (validateFile (with_defaults (required_only "p"))
                (mkFile "a.mp4" 104857601 "video/mp4") = Some SizeExceeded).
Proof.
  split; [|split; [|split; reflexivity]].
  - unfold validateFile. case_bool_decide as Ht; simpl.
    + destruct (exceeds _ _) eqn:Hx.
      * split; [done|]. intros [_ Hle]. apply exceeds_megabytes in Hle.
        congruence.
      * split; [|done]. intros _. split; [done|]. by apply exceeds_megabytes.
    + split; [done|]. by intros [? _].
  - unfold validateFile. case_bool_decide as Ht; simpl.
    + destruct (exceeds _ _); split; done.
    + done.
Qed.

Lemma rejected_progress cfg f v h :
  is_Some (uploadError (processFile cfg f v h)) →
  frameExtractionProgress (processFile cfg f v h) = Double.of_Z 0 ∧
  extracted (processFile cfg f v h) = [] ∧
  hook (processFile cfg f v h) = h.
Proof.
  unfold processFile, generateThumbnail, extractFrames.
  destruct (validateFile cfg f); [done|].
  destruct (loads v); simpl; [|done].
  destruct (Double.gtb (duration v) (the_maxDurationSeconds cfg)); [done|].
  destruct (canvas_context v); [|done].
  destruct (created_context v); [|done].
  simpl. by intros [? ?].
Qed.

(** X19. After [processFile], whatever its outcome and whatever the
    moderation result is or becomes, the upload button of the default
    preview is disabled: either the extraction has not reached 100 %, or
    the stage text ['Moderation complete'] is still shown, and both count
    as processing. *)
Theorem video_confirm_is_never_enabled
    (cfg : Settings) (f : File) (v : Video) (h : UseModeration.state)
    (r : ModerationResult) :
  isProcessing r (processFile cfg f v h) = true ∧
  canConfirm cfg r (processFile cfg f v h) = false.
Proof.
  assert (Hp : isProcessing r (processFile cfg f v h) = true).
  { unfold isProcessing, processingStage.
    destruct (uploadError (processFile cfg f v h)) as [why|] eqn:Herr.
    - destruct (rejected_progress cfg f v h) as (Hz & _); [by rewrite Herr|].
      rewrite Hz.
      change (Double.ltb (Double.of_Z 0) (Double.of_Z 100)) with true.
      by rewrite orb_true_r.
    - simpl. by rewrite orb_true_r. }
  split; [done|]. unfold canConfirm. by rewrite Hp.
Qed.

(** X20. A file that [processFile] rejects (wrong type, too large,
    unreadable, too long, or no canvas) never reaches the moderation hook
    and yields no frames, and the rejection is passed to [onReject] once;
    an accepted file is not reported to [onReject].  With a frame count of
    zero an accepted video is not checked either. *)
Theorem rejected_videos_are_never_checked
    (cfg : Settings) (f : File) (v : Video) (h : UseModeration.state) :
  let out := processFile cfg f v h in
  match uploadError out with
  | Some why =>
      hook out = h ∧ extracted out = [] ∧
      rejections out = (if reports_rejections cfg then [why] else [])
  | None =>
      rejections out = [] ∧ is_Some (thumbnail out) ∧
      length (extracted out) = the_extractFramesCount cfg ∧
      (the_extractFramesCount cfg = 0%nat → hook out = h)
  end.
Proof.
  unfold processFile, generateThumbnail.
  destruct (validateFile cfg f); [done|].
  destruct (loads v); simpl; [|done].
  destruct (Double.gtb (duration v) (the_maxDurationSeconds cfg)); [done|].
  destruct (canvas_context v); [|done].
  destruct (created_context v) eqn:Hctx.
  - destruct (extractFrames_frames cfg v Hctx) as (ex & -> & Hfr & _).
    simpl. split; [done|]. split; [done|].
    assert (Hlen : length (frames ex) = the_extractFramesCount cfg).
    { rewrite Hfr. unfold sample_times. by rewrite !length_map, length_seq. }
    split; [done|]. intros Hz. rewrite Hlen, Hz. done.
  - unfold extractFrames. rewrite Hctx. done.
Qed.

End VideoPreviewFacts.

(** ** The message handler of the Discord bot *)

Module MessageCreateFacts.
Import JsString ConfigStore ConfigStoreOps RateLimiter RateLimiterFacts
       RateLimiterRuns RateLimiterRunsFacts MessageCreate.

(** The handler, path by path. *)
Lemma onMessageCreate_outcome now1 now2 now3 vettly m w rl :
  let '(effects, w', rl') := onMessageCreate now1 now2 now3 vettly m w rl in
  match eligible now1 now2 m w with
  | None => effects = [] ∧ rl' = rl
  | Some (gid, gname, cfg) =>
      rl' = snd (isLimited now3 gid rl) ∧
      effects = (if admitted now3 gid rl then
                   CheckMultimodal (request_for cfg gid gname m)
                   :: reaction vettly m
                 else [LogWarn "Rate limited"])
  end ∧
  w' = (if author_bot m then w
        else match guild m with
             | Some (gid, _) => snd (getServerConfig now1 now2 gid w)
             | None => w
             end).
Proof.
  unfold onMessageCreate, eligible.
  destruct (author_bot m); [done|].
  destruct (guild m) as [[gid gname]|]; [|done].
  destruct (getServerConfig now1 now2 gid w) as [[cfg|] w1]; [|done].
  cbn [fst snd]. destruct (enabled cfg); [|done]. cbn [negb andb].
  destruct (hasText m); cbn [negb andb orb].
  - unfold admitted. destruct (isLimited now3 gid rl) as [[|] rl1]; cbn [fst snd negb].
    + done.
    + by destruct vettly as [d [| | |]|].
  - destruct (length (image_urls m) =? 0)%nat; cbn [negb]; [done|].
    unfold admitted. destruct (isLimited now3 gid rl) as [[|] rl1]; cbn [fst snd negb].
    + done.
    + by destruct vettly as [d [| | |]|].
Qed.

Lemma reaction_no_call vettly m :
  List.filter is_call (reaction vettly m) = [].
Proof.
  destruct vettly as [d [| | |]|]; try done. simpl. unfold on_block.
  destruct (botPermissions m) as [[[|] [|]]|]; done.
Qed.

(** X21. The handler calls the moderation service at most once per
    message, and exactly when the message is eligible (not from a bot,
    sent in a guild whose configuration exists and is enabled, with text
    or an image) and the limiter admits it.  A message that is not
    eligible never reaches the limiter and so uses none of the guild's
    quota; a message from a bot or outside a guild does not even read
    the configuration. *)
Theorem moderation_call_is_gated
    (now1 now2 now3 : Z) (vettly : Vettly) (m : Message)
    (w : world) (rl : RateLimiter.t) :
  let '(effects, w', rl') := onMessageCreate now1 now2 now3 vettly m w rl in
  List.filter is_call effects
  = match eligible now1 now2 m w with
    | Some (gid, gname, cfg) =>
        if admitted now3 gid rl
        then [CheckMultimodal (request_for cfg gid gname m)] else []
    | None => []
    end ∧
  rl' = match eligible now1 now2 m w with
        | Some (gid, _, _) => snd (isLimited now3 gid rl)
        | None => rl
        end ∧
  (eligible now1 now2 m w = None → effects = []) ∧
  (author_bot m = true ∨ guild m = None → w' = w).
Proof.
  pose proof (onMessageCreate_outcome now1 now2 now3 vettly m w rl) as H.
  destruct (onMessageCreate now1 now2 now3 vettly m w rl) as [[effects w'] rl'].
  destruct H as [H Hw].
  destruct (eligible now1 now2 m w) as [[[gid gname] cfg]|].
  - destruct H as [-> ->]. split; [|split; [done|split; [done|]]].
    + destruct (admitted now3 gid rl); [|done].
      cbn [List.filter is_call]. by rewrite reaction_no_call.
    + intros [Hb|Hg]; [by rewrite Hb in Hw|].
      destruct (author_bot m); [done|]. by rewrite Hg in Hw.
  - destruct H as [-> ->]. split; [done|]. split; [done|]. split; [done|].
    intros [Hb|Hg]; [by rewrite Hb in Hw|].
    destruct (author_bot m); [done|]. by rewrite Hg in Hw.
Qed.

(** X22. What the handler does to a message depends on the answer alone.
    It deletes only a message that was answered [block], and only when
    the bot may manage messages (otherwise it posts a notice if it may
    send); a blocked message is reported to the moderation log either
    way.  A flagged message is reported and never deleted.  On [allow],
    on [warn], and when the moderation call fails, nothing is done to
    the message: the handler fails open. *)
Theorem handler_interventions
    (now1 now2 now3 : Z) (vettly : Vettly) (m : Message)
    (w : world) (rl : RateLimiter.t) :
  let '(effects, _, _) := onMessageCreate now1 now2 now3 vettly m w rl in
  List.filter is_intervention effects
  = if existsb is_call effects then
      match vettly with
      | Answered _ block =>
          match botPermissions m with
          | Some p =>
              if manageMessages p then [DeleteMessage; SendModLog blocked]
              else if sendMessages p
                   then [NotifyMissingPermission; SendModLog blocked]
                   else [SendModLog blocked]
          | None => [SendModLog blocked]
          end
      | Answered _ flag => [SendModLog flagged]
      | Answered _ _ => []
      | Failed => []
      end
    else [].
Proof.
  pose proof (onMessageCreate_outcome now1 now2 now3 vettly m w rl) as H.
  destruct (onMessageCreate now1 now2 now3 vettly m w rl) as [[effects w'] rl'].
  destruct H as [H _].
  destruct (eligible now1 now2 m w) as [[[gid gname] cfg]|].
  - destruct H as [_ ->]. destruct (admitted now3 gid rl); [|done].
    cbn [existsb is_call orb List.filter is_intervention].
    destruct vettly as [d [| | |]|]; try done. simpl. unfold on_block.
    destruct (botPermissions m) as [[[|] [|]]|]; done.
  - by destruct H as [-> _].
Qed.

Lemma reaction_calls_for g vettly m : calls_for g (reaction vettly m) = 0%nat.
Proof.
  unfold calls_for. destruct vettly as [d [| | |]|]; try done.
  simpl. unfold on_block. destruct (botPermissions m) as [[[|] [|]]|]; done.
Qed.

(** One message either leaves the limiter alone and causes no call, or it
    is one call of the limiter, with a moderation call for the guild
    exactly when the limiter admits it. *)
Lemma handler_limiter g now1 now2 now3 vettly m w rl :
  let '(effects, _, rl') := onMessageCreate now1 now2 now3 vettly m w rl in
  (rl' = rl ∧ calls_for g effects = 0%nat) ∨
  ∃ gid, rl' = step rl (Call gid now3) ∧
         calls_for g effects = admits g [Call gid now3] rl.
Proof.
  pose proof (onMessageCreate_outcome now1 now2 now3 vettly m w rl) as H.
  destruct (onMessageCreate now1 now2 now3 vettly m w rl) as [[effects w'] rl'].
  destruct H as [H _].
  destruct (eligible now1 now2 m w) as [[[gid gname] cfg]|].
  - right. exists gid. destruct H as [-> ->]. split; [done|].
    cbn [admits]. rewrite Nat.add_0_r.
    destruct (admitted now3 gid rl) eqn:Hadm.
    + unfold calls_for. cbn [List.filter request_for guildId].
      fold (calls_for g (reaction vettly m)).
      destruct (String.eqb_spec gid g) as [->|Hne].
      * rewrite bool_decide_eq_true_2 by done. rewrite Hadm.
        cbn [length]. fold (calls_for g (reaction vettly m)).
        by rewrite reaction_calls_for.
      * rewrite bool_decide_eq_false_2 by done.
        fold (calls_for g (reaction vettly m)). apply reaction_calls_for.
    + case_bool_decide; [subst; by rewrite Hadm|done].
  - left. by destruct H as [-> ->].
Qed.

Lemma handle_all_bound g now arrivals : ∀ w rl,
  Forall (λ a, at3 a ≤ now ∧ now - at3 a < windowMs rl) arrivals →
  Z.of_nat (length (timestamps_of rl g)) ≤ Z.max 0 (maxRequests rl) →
  let '(effects, _, rl') := handle_all arrivals w rl in
  (calls_for g effects
   + length (recent (windowMs rl) now (timestamps_of rl g))
   = length (recent (windowMs rl) now (timestamps_of rl' g)))%nat ∧
  Z.of_nat (length (timestamps_of rl' g)) ≤ Z.max 0 (maxRequests rl).
Proof.
  induction arrivals as [|a rest IH]; intros w rl Hall Hb; [done|].
  apply Forall_cons in Hall as [[Hle Hin] Hall]. cbn [handle_all].
  pose proof (handler_limiter g (at1 a) (at2 a) (at3 a) (outcome a)
                (message a) w rl) as Hone.
  destruct (onMessageCreate (at1 a) (at2 a) (at3 a) (outcome a) (message a) w rl)
    as [[effects w1] rl1].
  assert (Hstep : windowMs rl1 = windowMs rl ∧ maxRequests rl1 = maxRequests rl
                  ∧ Z.of_nat (length (timestamps_of rl1 g))
                    ≤ Z.max 0 (maxRequests rl)
                  ∧ (calls_for g effects
                     + length (recent (windowMs rl) now (timestamps_of rl g))
                     = length (recent (windowMs rl) now (timestamps_of rl1 g)))%nat).
  { destruct Hone as [[-> Hz]|(gid & -> & Hc)].
    - rewrite Hz. by repeat split.
    - rewrite windowMs_step, maxRequests_step. split; [done|]. split; [done|].
      split.
      + rewrite <- (maxRequests_step rl (Call gid (at3 a))).
        by apply stored_bounded_step.
      + rewrite Hc.
        assert (Hone' : Forall (λ e, time_of e ≤ now
                                      ∧ now - time_of e < windowMs rl)
                               [Call gid (at3 a)]) by (by repeat constructor).
        pose proof (recent_count_run now g [Call gid (at3 a)] rl Hone') as Hcount.
        change (run [Call gid (at3 a)] rl) with (step rl (Call gid (at3 a)))
          in Hcount.
        lia. }
  destruct Hstep as (Hw & Hm & Hb1 & Hcount).
  specialize (IH w1 rl1). rewrite Hw, Hm in IH. specialize (IH Hall Hb1).
  destruct (handle_all rest w1 rl1) as [[effects' w2] rl2].
  destruct IH as [IHc IHb]. split; [|done].
  unfold calls_for in *. rewrite List.filter_app, length_app. lia.
Qed.

(** X23. The handler shields the moderation service: with the limiter as
    the constructor builds it, among messages that all arrive within one
    window the handler makes at most [maxRequests] moderation calls for
    any one guild, whatever the messages, the configurations and the
    answers are. *)
Theorem handler_calls_at_most_cap_per_window
    (cap window : Z) (arrivals : list Arrival) (w : world)
    (g : string) (now : Z) :
  Forall (λ a, at3 a ≤ now ∧ now - at3 a < window) arrivals →
  let '(effects, _, _) := handle_all arrivals w (RateLimiter.new cap window) in
  Z.of_nat (calls_for g effects) ≤ Z.max 0 cap.
Proof.
  intros Hall.
  pose proof (handle_all_bound g now arrivals w (RateLimiter.new cap window))
    as H.
  cbn [windowMs maxRequests new] in H. rewrite timestamps_of_new in H.
  specialize (H Hall). simpl in H.
  destruct (handle_all arrivals w (RateLimiter.new cap window))
    as [[effects w'] rl'].
  destruct H as [Hc Hb]; [lia|].
  pose proof (length_filter (λ ts, now - ts < window) (timestamps_of rl' g)).
  unfold recent in Hc. lia.
Qed.

(** Three messages in a guild whose cap is two. *)
Lemma handler_calls_at_most_cap_per_window_witness :
  let row := mkServer "1" "g" (Some "Guild") "balanced" (Some "log") true 0 0 in
  let w := mkWorld {["g" := row]} ∅ [] in
  let m := mkMessage false "u" "user" (Some ("g", "Guild")%string) (js "hi") []
                     "c" None None in
  let arrivals := [mkArrival 0 1 2 (Answered "d1" allow) m;
                   mkArrival 10 11 12 Failed m;
                   mkArrival 20 21 22 (Answered "d3" block) m] in
  (let '(effects, _, _) := handle_all arrivals w (RateLimiter.new 2 60000) in
   calls_for "g" effects = 2%nat) ∧
  (let '(effects, _, _) := handle_all arrivals w (RateLimiter.new 2 60000) in
   Z.of_nat (calls_for "g" effects) ≤ Z.max 0 2).
Proof.
  intros row w m arrivals. split; [reflexivity|].
  apply (handler_calls_at_most_cap_per_window 2 60000 arrivals w "g" 22).
  repeat constructor; simpl; lia.
Defined.

(** *** The moderation log *)

(** X24. [truncate] returns a string that fits as it is.  A longer one
    is cut to [maxLength - 3] code units followed by ["..."], so for
    [maxLength] of at least 3 the result has exactly [maxLength] code units
    and never more. *)
Theorem truncate_fits (str : jsstring) (maxLength : Z) :
  3 ≤ maxLength →
  Z.of_nat (length (truncate str maxLength)) ≤ maxLength ∧
  (Z.of_nat (length str) ≤ maxLength → truncate str maxLength = str) ∧
  (maxLength < Z.of_nat (length str) →
   truncate str maxLength = firstn (Z.to_nat (maxLength - 3)) str ++ js "..." ∧
   Z.of_nat (length (truncate str maxLength)) = maxLength).
Proof.
  intros Hm. unfold truncate, slice_to. case_bool_decide as Hfit.
  - split; [done|]. split; [done|]. lia.
  - rewrite bool_decide_eq_false_2 by lia.
    assert (Hlen : Z.of_nat (length (firstn (Z.to_nat (maxLength - 3)) str
                                     ++ js "...")) = maxLength).
    { rewrite length_app, length_take. simpl. lia. }
    split; [lia|]. split; [lia|]. done.
Qed.

Lemma truncate_fits_witness :
  truncate (js "hello world") 8 = js "hello..." ∧
  truncate (js "hello") 8 = js "hello".
Proof.
  split.
  - destruct (truncate_fits (js "hello world") 8) as (_ & _ & H); [lia|].
    destruct H as [H _]; [simpl; lia|]. rewrite H. reflexivity.
  - destruct (truncate_fits (js "hello") 8) as (_ & H & _); [lia|].
    apply H. simpl. lia.
Defined.

End MessageCreateFacts.

(** ** The moderation hook: debouncing *)

Module DebounceFacts.
Import JsString JsStringFacts UseModeration UseModerationFacts.
Import UseModerationLife UseModerationLifeFacts.

(** *** Lists of request identifiers *)

Lemma ids_app rs1 rs2 : ids (rs1 ++ rs2) = ids rs1 ++ ids rs2.
Proof. apply map_app. Qed.

Lemma ids_elem r rs : r ∈ rs → fst r ∈ ids rs.
Proof. intros H. by apply (list_elem_of_fmap_2 fst). Qed.

Lemma ids_remove_request rid rs :
  ids (remove_request rid rs) = filter (λ i, i ≠ rid) (ids rs).
Proof.
  unfold remove_request, ids. induction rs as [|[i q] rs IH]; [done|].
  rewrite filter_cons. cbn [map fst]. rewrite filter_cons. cbn [fst].
  destruct (decide (i ≠ rid)); cbn [map fst]; by rewrite IH.
Qed.

Lemma remove_request_elem rid rs r : r ∈ remove_request rid rs → r ∈ rs.
Proof. unfold remove_request. intros H. by apply list_elem_of_filter in H as [_ H]. Qed.

Lemma find_request_elem rid rs request :
  find_request rid rs = Some request → (rid, request) ∈ rs.
Proof.
  unfold find_request.
  destruct (List.find (λ r, Nat.eqb (fst r) rid) rs) as [[i q]|] eqn:Hf; [|done].
  intros [= <-]. apply List.find_some in Hf as [Hin Heq].
  apply Nat.eqb_eq in Heq. simpl in Heq. subst i. by apply list_elem_of_In.
Qed.

Lemma find_request_last rid rs request :
  is_Some (find_request rid (rs ++ [(rid, request)])).
Proof.
  unfold find_request. induction rs as [|[i q] rs IH]; simpl.
  - rewrite Nat.eqb_refl. by eexists.
  - destruct (Nat.eqb i rid); [by eexists|done].
Qed.

Lemma NoDup_fresh (I D : list nat) n :
  NoDup (I ++ D) → n ∉ I → n ∉ D → NoDup ((I ++ [n]) ++ D).
Proof.
  rewrite !NoDup_app. intros (HI & Hdis & HD) HnI HnD.
  split; [split; [done|split; [|apply NoDup_singleton]]|split; [|done]].
  - intros x Hx Hx'. apply list_elem_of_singleton in Hx'. by subst x.
  - intros x Hx. apply elem_of_app in Hx as [Hx|Hx]; [by apply Hdis|].
    apply list_elem_of_singleton in Hx. by subst x.
Qed.

Lemma NoDup_drop (I D : list nat) rid :
  NoDup (I ++ D) → NoDup (filter (λ i, i ≠ rid) I ++ D).
Proof.
  rewrite !NoDup_app. intros (HI & Hdis & HD).
  split; [by apply NoDup_filter|]. split; [|done].
  intros x Hx. apply list_elem_of_filter in Hx as [_ Hx]. by apply Hdis.
Qed.

Lemma NoDup_move (I D : list nat) rid :
  NoDup (I ++ D) → rid ∈ I → NoDup (filter (λ i, i ≠ rid) I ++ D ++ [rid]).
Proof.
  rewrite !NoDup_app. intros (HI & Hdis & HD) Hin.
  split; [by apply NoDup_filter|]. split.
  - intros x Hx. apply list_elem_of_filter in Hx as [Hne Hx].
    intros Hx'. apply elem_of_app in Hx' as [Hx'|Hx'].
    + by apply (Hdis x).
    + apply list_elem_of_singleton in Hx'. done.
  - split; [done|]. split; [|apply NoDup_singleton].
    intros x Hx Hx'. apply list_elem_of_singleton in Hx'. subst x.
    by apply (Hdis rid).
Qed.

Section Latest.
Variable opts : Options.

(** *** How the hook keeps track of its requests *)

Lemma requests_tracked_init client : requests_tracked (init client).
Proof.
  repeat split; try (intros x Hx; by apply elem_of_nil in Hx).
  simpl. constructor.
Qed.

Lemma requests_tracked_settle rid s request :
  requests_tracked s → find_request rid (inflight s) = Some request →
  requests_tracked (settle rid s).
Proof.
  intros (Hlt & Hsent & Hdel & Hnd) Hfind. repeat split; cbn [settle remote_calls
    next_request inflight delivered]; try done.
  - intros r Hr. apply Hsent. by apply (remove_request_elem rid).
  - rewrite ids_remove_request. by apply NoDup_drop.
Qed.

Lemma requests_tracked_deliver rid s request :
  requests_tracked s → find_request rid (inflight s) = Some request →
  (∀ r, r ∈ remote_calls s → (fst r < next_request s)%nat) ∧
  (∀ r, r ∈ remove_request rid (inflight s) → r ∈ remote_calls s) ∧
  (∀ i, i ∈ delivered s ++ [rid] → i ∈ ids (remote_calls s)) ∧
  NoDup (ids (remove_request rid (inflight s)) ++ delivered s ++ [rid]).
Proof.
  intros (Hlt & Hsent & Hdel & Hnd) Hfind.
  apply find_request_elem in Hfind.
  split; [done|]. split; [|split].
  - intros r Hr. apply Hsent. by apply (remove_request_elem rid).
  - intros i Hi. apply elem_of_app in Hi as [Hi|Hi]; [by apply Hdel|].
    apply list_elem_of_singleton in Hi. subst i.
    apply (ids_elem (rid, request)). by apply Hsent.
  - rewrite ids_remove_request. apply NoDup_move; [done|].
    by apply (ids_elem (rid, request)).
Qed.

Lemma requests_tracked_step s e :
  requests_tracked s → requests_tracked (step opts s e).
Proof.
  intros Htr. destruct e as [c|dt|h|rid r|rid err]; cbn [step].
  - unfold check. destruct (negb (enabled opts) || negb (client s)); [done|].
    by destruct (is_empty c).
  - by case_bool_decide.
  - destruct (find_timer h (timers s)) as [t|]; [|done].
    case_bool_decide; [|done]. unfold fire, on_rejected.
    destruct (client s).
    + destruct Htr as (Hlt & Hsent & Hdel & Hnd).
      repeat split; cbn [remote_calls next_request inflight delivered].
      * intros r Hr. apply elem_of_app in Hr as [Hr|Hr].
        -- specialize (Hlt r Hr). lia.
        -- apply list_elem_of_singleton in Hr. subst r. simpl. lia.
      * intros r Hr. apply elem_of_app in Hr as [Hr|Hr].
        -- apply elem_of_app. left. by apply Hsent.
        -- apply elem_of_app. by right.
      * intros i Hi. rewrite ids_app. apply elem_of_app. left. by apply Hdel.
      * rewrite ids_app. apply NoDup_fresh; [done|..].
        -- intros Hin. apply list_elem_of_fmap in Hin as (r & Heq & Hr).
           apply Hsent, Hlt in Hr. simpl in Heq. lia.
        -- intros Hin. apply Hdel in Hin.
           apply list_elem_of_fmap in Hin as (r & Heq & Hr).
           apply Hlt in Hr. simpl in Heq. lia.
    + by case_bool_decide.
  - destruct (find_request rid (inflight s)) as [request|] eqn:Hfind; [|done].
    destruct (requests_tracked_deliver rid s request Htr Hfind)
      as (H1 & H2 & H3 & H4).
    by repeat split.
  - destruct (find_request rid (inflight s)) as [request|] eqn:Hfind; [|done].
    unfold on_rejected. case_bool_decide.
    + by apply (requests_tracked_settle rid s request).
    + destruct (requests_tracked_deliver rid s request Htr Hfind)
        as (H1 & H2 & H3 & H4).
      by repeat split.
Qed.

Lemma requests_tracked_run evs : ∀ s,
  requests_tracked s → requests_tracked (run opts evs s).
Proof.
  induction evs as [|e evs IH]; intros s Hs; [done|].
  simpl. apply IH. by apply requests_tracked_step.
Qed.

Lemma run_client evs : ∀ s, client (run opts evs s) = client s.
Proof.
  induction evs as [|e evs IH]; intros s; [done|].
  simpl. by rewrite IH, step_client.
Qed.

(** *** Before the timer is due *)

Lemma elapsed_nonneg evs : 0 ≤ elapsed evs.
Proof. induction evs as [|[] evs IH]; simpl; lia. Qed.

(** While less time passes than any pending timer waits for, and [check]
    is not called, no timer fires: the timers stay as they are and nothing
    is handed to the client.  Outcomes of requests in flight may arrive. *)
Lemma before_due evs : ∀ s,
  forallb (λ e, negb (is_check e)) evs = true →
  (∀ t, t ∈ timers s → clock s + elapsed evs < due t) →
  timers (run opts evs s) = timers s ∧
  clock (run opts evs s) = clock s + elapsed evs ∧
  next_handle (run opts evs s) = next_handle s ∧
  next_request (run opts evs s) = next_request s ∧
  remote_calls (run opts evs s) = remote_calls s.
Proof.
  induction evs as [|e evs IH]; intros s Hevs Hdue.
  - simpl. repeat split; try done. lia.
  - simpl in Hevs. apply andb_true_iff in Hevs as [He Hevs].
    change (run opts (e :: evs) s) with (run opts evs (step opts s e)).
    pose proof (elapsed_nonneg evs) as Hpos.
    assert (Hstep : timers (step opts s e) = timers s ∧
                    clock (step opts s e) + elapsed evs
                    = clock s + elapsed (e :: evs) ∧
                    next_handle (step opts s e) = next_handle s ∧
                    next_request (step opts s e) = next_request s ∧
                    remote_calls (step opts s e) = remote_calls s).
    { destruct e as [c|dt|h|rid r|rid err]; [done|..]; cbn [step elapsed].
      - case_bool_decide; simpl; repeat split; try done; lia.
      - destruct (find_timer h (timers s)) as [t|] eqn:Hf; [|done].
        apply find_timer_elem in Hf. specialize (Hdue t Hf).
        cbn [elapsed] in Hdue. by rewrite bool_decide_eq_false_2 by lia.
      - by destruct (find_request rid (inflight s)).
      - destruct (find_request rid (inflight s)); [|done].
        unfold on_rejected. by case_bool_decide. }
    destruct Hstep as (Ht & Hck & Hh & Hn & Hr).
    destruct (IH (step opts s e) Hevs) as (Ht' & Hck' & Hh' & Hn' & Hr').
    { intros t Hin. rewrite Ht in Hin. specialize (Hdue t Hin). lia. }
    rewrite Ht', Hck', Hh', Hn', Hr'. by repeat split.
Qed.

(** What a call of [check] leaves behind, on a hook that is enabled and
    has its client. *)
Lemma check_schedules c s :
  enabled opts = true → client s = true → timers_owned s →
  timers (check opts c s)
  = (if is_empty c then []
     else [mkTimer (next_handle s)
                   (clock s + setTimeout_delay (debounceMs opts)) c]) ∧
  client (check opts c s) = true ∧ clock (check opts c s) = clock s ∧
  next_request (check opts c s) = next_request s ∧
  remote_calls (check opts c s) = remote_calls s ∧
  (is_empty c = true → result (check opts c s) = safe_result).
Proof.
  intros Hen Hcl [_ Hown]. unfold check. rewrite Hen, Hcl. cbn [negb orb].
  rewrite (clear_owned s) by (intros t Ht; by apply Hown).
  destruct (is_empty c); simpl; do 5 (split; [done|]); done.
Qed.

(** *** After the last check *)

Lemma after_last_check_step s0 t s e :
  after_last_check opts s0 t s → is_check e = false →
  after_last_check opts s0 t (step opts s e).
Proof.
  intros [(Ht & Hc & Hn & Hr)|(Ht & Hr)] He;
    destruct e as [c|dt|h|rid r|rid err]; try done; cbn [step].
  - case_bool_decide; by left.
  - rewrite Ht, find_timer_singleton.
    destruct (Nat.eqb (handle t) h); [|by left].
    case_bool_decide; [|by left].
    right. unfold fire. rewrite Hc. cbn [timers remote_calls].
    by rewrite Ht, clearTimeout_singleton, Hr, Hn.
  - destruct (find_request rid (inflight s)); by left.
  - destruct (find_request rid (inflight s)); [|by left].
    unfold on_rejected. case_bool_decide; by left.
  - case_bool_decide; by right.
  - rewrite Ht. by right.
  - destruct (find_request rid (inflight s)); by right.
  - destruct (find_request rid (inflight s)); [|by right].
    unfold on_rejected. case_bool_decide; by right.
Qed.

Lemma after_last_check_run s0 t evs : ∀ s,
  after_last_check opts s0 t s →
  forallb (λ e, negb (is_check e)) evs = true →
  after_last_check opts s0 t (run opts evs s).
Proof.
  induction evs as [|e evs IH]; intros s Hs Hevs; [done|].
  simpl in Hevs. apply andb_true_iff in Hevs as [He Hevs].
  apply IH; [|done]. apply after_last_check_step; [done|].
  by destruct (is_check e).
Qed.

(** C2 (amended). The hook is enabled, has its client, and has gone
    through any history; its debounce delay is one [setTimeout] can
    represent.  [check] is called for [A] and then, before the delay has
    elapsed, for [B]; in between time passes and outcomes of older
    requests may arrive.  Then no request was sent for [A], and the call
    for [B] removes the timer of [A]: the only timer pending is the one of
    [B].  Whatever happens afterwards, short of a new [check], the
    requests sent are those sent before [A] and at most one more, the one
    for [B]; every outcome delivered belongs to a request that was sent,
    and none is delivered twice.  When [B] is not empty and the delay
    passes, the timer fires and the request is answered, the answer is
    the one outcome delivered since the call for [B]: [result] takes the
    fields of that response and [onCheck] is called with it.  When [B] is
    empty the result is the safe one and nothing is sent for either. *)
Theorem debounce_latest_wins
    (history between : list event) (A B : Content) :
  enabled opts = true →
  debounceMs opts ≤ TIMEOUT_MAX →
  forallb (λ e, negb (is_check e)) between = true →
  elapsed between < debounceMs opts →
  let s := run opts history (init true) in
  let sA := run opts (Check A :: between) s in
  let sB := check opts B sA in
  let rid := next_request s in
  let requestB := checkRequest opts B in
  remote_calls sA = remote_calls s ∧
  timers sB
  = (if is_empty B then []
     else [mkTimer (next_handle sA) (clock sA + debounceMs opts) B]) ∧
  remote_calls sB = remote_calls s ∧
  (is_empty B = true → result sB = safe_result) ∧
  (∀ evs, forallb (λ e, negb (is_check e)) evs = true →
     let s' := run opts evs sB in
     (remote_calls s' = remote_calls s ∨
      is_empty B = false ∧ remote_calls s' = remote_calls s ++ [(rid, requestB)]) ∧
     (∀ i, i ∈ delivered s' → i ∈ ids (remote_calls s')) ∧
     NoDup (delivered s')) ∧
  (rid ∉ ids (remote_calls s)) ∧
  content requestB = content_of B ∧ policyId requestB = opt_policyId opts ∧
  (is_empty B = false → ∀ response,
     let s' := run opts [Tick (debounceMs opts); Fire (next_handle sA);
                         Resolve rid response] sB in
     remote_calls s' = remote_calls s ++ [(rid, requestB)] ∧
     safe (result s') = response_safe response ∧
     flagged (result s') = response_flagged response ∧
     action (result s') = response_action response ∧
     categories (result s') = default [] (response_categories response) ∧
     isChecking (result s') = false ∧ error (result s') = None ∧
     delivered s' = delivered sB ++ [rid] ∧
     callbacks s' = (if has_onCheck opts then callbacks sB ++ [OnCheck response]
                     else callbacks sB)).
Proof.
  intros Hen Hmax Hbetween Hlt s sA sB rid requestB.
  pose proof (elapsed_nonneg between) as Hpos.
  assert (Hdelay : setTimeout_delay (debounceMs opts) = debounceMs opts)
    by (apply setTimeout_delay_kept; lia).
  assert (Hown : timers_owned s)
    by apply timers_owned_run, timers_owned_init.
  assert (Hcl : client s = true) by (subst s; by rewrite run_client).
  assert (Htr : requests_tracked s)
    by apply requests_tracked_run, requests_tracked_init.
  destruct (check_schedules A s Hen Hcl Hown) as (Ht1 & Hc1 & Hk1 & Hn1 & Hr1 & _).
  assert (HsA : sA = run opts between (check opts A s)) by done.
  destruct (before_due between (check opts A s) Hbetween)
    as (HtA & HkA & HhA & HnA & HrA).
  { intros t Hin. rewrite Ht1 in Hin. destruct (is_empty A).
    - by apply elem_of_nil in Hin.
    - apply list_elem_of_singleton in Hin. subst t. cbn [due].
      rewrite Hk1, Hdelay. lia. }
  rewrite <- HsA in HtA, HkA, HhA, HnA, HrA.
  assert (HclA : client sA = true) by (rewrite HsA, run_client; exact Hc1).
  assert (HownA : timers_owned sA).
  { rewrite HsA. apply timers_owned_run.
    by apply (timers_owned_step opts s (Check A)). }
  assert (HtrA : requests_tracked sA).
  { rewrite HsA. apply requests_tracked_run.
    by apply (requests_tracked_step s (Check A)). }
  destruct (check_schedules B sA Hen HclA HownA)
    as (HtB & HcB & HkB & HnB & HrB & HresB).
  fold sB in HtB, HcB, HkB, HnB, HrB, HresB.
  rewrite Hdelay in HtB.
  assert (HtrB : requests_tracked sB)
    by (by apply (requests_tracked_step sA (Check B))).
  assert (Hrid : next_request sB = rid) by (by rewrite HnB, HnA, Hn1).
  assert (HrcB : remote_calls sB = remote_calls s) by (by rewrite HrB, HrA, Hr1).
  clearbody sB. clearbody sA.
  split; [by rewrite HrA, Hr1|]. split; [done|]. split; [done|].
  split; [done|]. split; [|split; [|split; [|split]]].
  - intros evs Hevs s'.
    destruct (requests_tracked_run evs sB HtrB) as (_ & _ & Hdel & Hnd).
    split; [|split; [done|]].
    + destruct (is_empty B) eqn:HB.
      * left. destruct (no_timer_no_request opts evs sB HtB Hevs) as [_ H].
        subst s'. by rewrite H.
      * destruct (after_last_check_run sB _ evs sB (or_introl
                    (conj HtB (conj HcB (conj eq_refl eq_refl)))) Hevs)
          as [(_ & _ & _ & Hr)|(_ & Hr)].
        -- left. subst s'. by rewrite Hr.
        -- right. split; [done|]. subst s'. rewrite Hr. cbn [captured].
           by rewrite Hrid, HrcB.
    + apply NoDup_app in Hnd as (_ & _ & Hnd). exact Hnd.
  - intros Hin. destruct Htr as (Hlt' & _).
    apply list_elem_of_fmap in Hin as (r & Heq & Hr).
    apply Hlt' in Hr. subst rid. lia.
  - apply content_checkRequest.
  - subst requestB. by destruct B.
  - intros HB response. rewrite HB in HtB.
    unfold run. cbn [fold_left].
    set (tB := mkTimer (next_handle sA) (clock sA + debounceMs opts) B) in *.
    set (s1 := step opts sB (Tick (debounceMs opts))).
    assert (Hs1 : s1 = advance (debounceMs opts) sB).
    { subst s1. cbn [step]. by rewrite bool_decide_eq_true_2 by lia. }
    set (s2 := step opts s1 (Fire (next_handle sA))).
    assert (Hs2 : s2 = fire opts tB s1).
    { subst s2. cbn [step]. rewrite Hs1. cbn [advance timers clock].
      rewrite HtB, find_timer_singleton. cbn [handle tB]. rewrite Nat.eqb_refl.
      rewrite bool_decide_eq_true_2; [done|]. rewrite HkB. cbn [due tB]. lia. }
    assert (Hin2 : inflight s2 = inflight sB ++ [(rid, requestB)]).
    { rewrite Hs2, Hs1. unfold fire. cbn [advance client]. rewrite HcB.
      simpl. by rewrite Hrid. }
    cbn [step]. rewrite Hin2.
    destruct (find_request_last rid (inflight sB) requestB) as [found ->].
    unfold on_fulfilled, settle. cbn [remote_calls result delivered callbacks].
    rewrite Hs2, Hs1. unfold fire. cbn [advance client]. rewrite HcB.
    simpl. rewrite Hrid, HrcB. by repeat split.
Qed.

End Latest.

(** A request for ["x"] is in flight.  ["a"] is typed; 100 ms later the
    response for ["x"] arrives; 50 ms later ["ab"] is typed.  After the
    delay the request for ["ab"] is sent and answered with a block. *)
Lemma debounce_latest_wins_witness :
  let opts := mkOptions "balanced" 500 true true false in
  let responseX := mkResponse true false allow (Some []) in
  let responseB := mkResponse false true block None in
  let history := [Check (Text (js "x")); Tick 500; Fire 1] in
  let between := [Tick 100; Resolve 1 responseX; Tick 50] in
  let s' := run opts (history ++ Check (Text (js "a")) :: between
                      ++ [Check (Text (js "ab")); Tick 500; Fire 3;
                          Resolve 2 responseB])
                (init true) in
  remote_calls s'
  = [(1%nat, mkRequest (js "x") "balanced" (Some text) None);
     (2%nat, mkRequest (js "ab") "balanced" (Some text) None)] ∧
  safe (result s') = false ∧ action (result s') = block ∧
  delivered s' = [1%nat; 2%nat] ∧
  callbacks s' = [OnCheck responseX; OnCheck responseB].
Proof.
  intros opts responseX responseB history between s'.
  destruct (debounce_latest_wins opts history between (Text (js "a"))
              (Text (js "ab")))
    as (_ & _ & _ & _ & _ & _ & _ & _ & H);
    [reflexivity|unfold TIMEOUT_MAX; simpl; lia|reflexivity|simpl; lia|].
  specialize (H eq_refl responseB). cbv zeta in H.
  destruct H as (Hr & Hs & _ & Ha & _ & _ & _ & Hd & Hcb).
  vm_compute in Hr, Hs, Ha, Hd, Hcb. vm_compute.
  split; [exact Hr|]. split; [exact Hs|]. split; [exact Ha|].
  split; [exact Hd|exact Hcb].
Defined.

(** C2 (as stated). With a debounce delay of 2^31 ms, which [setTimeout]
    cannot represent, the timer of ["a"] is due at once: 100 ms after the
    call, long before the delay has elapsed, it fires and the request for
    ["a"] is sent.  ["ab"] is typed after that, and both requests are
    answered: two results are delivered. *)
Lemma oversized_delay_does_not_debounce :
  let opts := mkOptions "balanced" 2147483648 true true false in
  let responseA := mkResponse false true block None in
  let responseB := mkResponse true false allow None in
  let sA := run opts [Check (Text (js "a")); Tick 100] (init true) in
  let s' := run opts [Fire 1; Check (Text (js "ab")); Fire 2;
                      Resolve 1 responseA; Resolve 2 responseB] sA in
  100 < debounceMs opts ∧
  remote_calls (step opts sA (Fire 1))
  = [(1%nat, mkRequest (js "a") "balanced" (Some text) None)] ∧
  map (λ r, content (snd r)) (remote_calls s') = [js "a"; js "ab"] ∧
  delivered s' = [1%nat; 2%nat] ∧
  callbacks s' = [OnCheck responseA; OnCheck responseB].
Proof. vm_compute. repeat split; reflexivity. Qed.

End DebounceFacts.
